(** * signal-react: a shallow embedding of [src/signals.mjs]

    The module keeps five pieces of module-level mutable state
    ([listenersMap], [computeMap], [computeStack], [signals], [reactStack])
    and exports [signal] and [update].  The embedding threads one [State]
    record through every function; functions that can throw return an
    [Outcome].  User computations (the [fn] handed to [update], and the
    top-level script) are trees of calls into the module, so that they can
    branch on every value they read but touch the module state only through
    the operations JavaScript gives them.

    Modelling scope.  Property keys are strings.  The module keeps its
    listener sets in object literals ([{}], lines 71 and 81), which inherit
    the members of [Object.prototype]: a lookup in them under such a name
    finds the inherited member, and the embedding follows the code there.
    Property values are undefined, null, booleans, integers, NaN, references
    to plain objects and references to signals.  A plain object is its own
    properties and the data properties its prototype chain contributes to a
    read.  The object literal that [update] wraps (line 127) is taken
    without the members it inherits from [Object.prototype], and what is
    proved about the properties of an output signal is stated for other
    names. *)

From Stdlib Require Import ZArith Lia.
From stdpp Require Import base option list sorting gmap strings.

Open Scope string_scope.
Open Scope list_scope.

(** ** Identities

    Objects are compared by identity in the source ([fn==f], [Set], [WeakMap]
    keys).  Each kind of object gets its allocation index as identity. *)

Abbreviation ref := nat (only parsing).     (* a plain object *)
Abbreviation sigid := nat (only parsing).   (* a Proxy made by [signal] *)
Abbreviation fnid := nat (only parsing).    (* a user function handed to [update] *)
Abbreviation rid := nat (only parsing).     (* a [reactor] closure made by [update] *)

(** ** Values *)

Inductive Value :=
| VUndef
| VNull
| VBool (b : bool)
| VNum (z : Z)
| VNaN
| VObj (r : ref)
| VSig (s : sigid).

(** [a === b] *)
Definition strict_eq (a b : Value) : bool :=
  match a, b with
  | VUndef, VUndef => true
  | VNull, VNull => true
  | VBool x, VBool y => Bool.eqb x y
  | VNum x, VNum y => Z.eqb x y
  | VObj x, VObj y => Nat.eqb x y
  | VSig x, VSig y => Nat.eqb x y
  | _, _ => false
  end.

(** [typeof v !== 'undefined'] *)
Definition is_defined (v : Value) : bool :=
  match v with VUndef => false | _ => true end.

(** [ToBoolean v] *)
Definition to_boolean (v : Value) : bool :=
  match v with
  | VUndef | VNull | VNaN => false
  | VBool b => b
  | VNum z => negb (Z.eqb z 0)
  | VObj _ | VSig _ => true
  end.

(** ** Plain objects

    Own properties are kept in insertion order.  [inherited] is what the
    prototype chain contributes to a property read. *)

Record Obj := mkObj {
  own : list (string * Value);
  inherited : list (string * Value)
}.

Definition empty_obj : Obj := mkObj [] [].

Fixpoint alookup {A : Type} (k : string) (l : list (string * A)) : option A :=
  match l with
  | [] => None
  | (k', v) :: l' => if decide (k = k') then Some v else alookup k l'
  end.

Fixpoint aset {A : Type} (k : string) (v : A) (l : list (string * A))
  : list (string * A) :=
  match l with
  | [] => [(k, v)]
  | (k', v') :: l' =>
      if decide (k = k') then (k, v) :: l' else (k', v') :: aset k v l'
  end.

Fixpoint adelete {A : Type} (k : string) (l : list (string * A))
  : list (string * A) :=
  match l with
  | [] => []
  | (k', v') :: l' =>
      if decide (k = k') then adelete k l' else (k', v') :: adelete k l'
  end.

(** [o[p]] *)
Definition obj_get (o : Obj) (p : string) : Value :=
  match alookup p (own o) with
  | Some v => v
  | None => default VUndef (alookup p (inherited o))
  end.

(** [Object.hasOwn(o, p)] *)
Definition obj_hasOwn (o : Obj) (p : string) : bool :=
  bool_decide (is_Some (alookup p (own o))).


(** [o[p] = v] *)
Definition obj_set (o : Obj) (p : string) (v : Value) : Obj :=
  mkObj (aset p v (own o)) (inherited o).

(** [delete o[p]] *)
Definition obj_delete (o : Obj) (p : string) : Obj :=
  mkObj (adelete p (own o)) (inherited o).

(** *** The order of own keys

    [Object.keys] and [Object.assign] list the own keys of an ordinary
    object with the array indices first, in ascending order, and the other
    keys after them in insertion order. *)

Definition digit_of (a : Ascii.ascii) : option N :=
  let n := Ascii.N_of_ascii a in
  if decide (48 ≤ n ∧ n ≤ 57)%N then Some (n - 48)%N else None.

Fixpoint decimal (acc : N) (s : string) : option N :=
  match s with
  | EmptyString => Some acc
  | String a rest =>
      match digit_of a with
      | Some d => decimal (acc * 10 + d)%N rest
      | None => None
      end
  end.

(** The integer a key denotes when it is an array index: the decimal
    numeral, without leading zero, of an integer below [2^32 - 1]. *)
Definition array_index (p : string) : option N :=
  match p with
  | EmptyString => None
  | String a rest =>
      if decide (digit_of a = Some 0%N ∧ rest ≠ EmptyString) then None
      else
        match decimal 0 p with
        | Some n => if decide (n < 4294967295)%N then Some n else None
        | None => None
        end
  end.

Definition index_le {A : Type} (x y : N * A) : Prop := (x.1 ≤ y.1)%N.

Global Instance index_le_dec {A : Type} (x y : N * A) :
  Decision (index_le x y).
Proof. unfold index_le. apply _. Defined.

Definition in_key_order {A : Type} (l : list (string * A))
  : list (string * A) :=
  (merge_sort index_le
     (omap (λ kv, (λ n, (n, kv)) <$> array_index kv.1) l)).*2
  ++ filter (λ kv, array_index kv.1 = None) l.

(** [Object.keys(o)] *)
Definition own_keys (o : Obj) : list string := (in_key_order (own o)).*1.

(** *** What the module's own object literals inherit

    The member names of [Object.prototype], each with the [length] of the
    member: that of the function, and none ([0] for [Array.from]) for the
    object the accessor [__proto__] yields.  All these members are truthy,
    and none has a method [add] or [delete]. *)
Definition Object_prototype : list (string * nat) :=
  [("constructor", 1); ("hasOwnProperty", 1); ("isPrototypeOf", 1);
   ("propertyIsEnumerable", 1); ("toLocaleString", 0); ("toString", 0);
   ("valueOf", 0); ("__defineGetter__", 2); ("__defineSetter__", 2);
   ("__lookupGetter__", 1); ("__lookupSetter__", 1); ("__proto__", 0)].

Definition inherited_member (p : string) : option nat :=
  alookup p Object_prototype.

(** ** JavaScript [Set]s of object identities, in insertion order *)

Definition set_add (x : nat) (l : list nat) : list nat :=
  if decide (x ∈ l) then l else l ++ [x].

Definition set_delete (x : nat) (l : list nat) : list nat :=
  filter (λ y, y ≠ x) l.

(** ** Observations

    [trace] records, newest first, which reactor bodies were entered and
    which reads were attributed to which reactor.  Nothing reads it back. *)

Inductive Event :=
| ERun (r : rid)
| ERead (r : rid) (self : option sigid) (p : string).

Global Instance Event_eq_dec : EqDecision Event.
Proof. solve_decision. Defined.

(** ** Module state *)

(** The inner maps of [listenersMap] and [computeMap] have no key that is a
    member name of [Object.prototype]: the module creates a key only where
    the lookup under it found nothing (lines 74-75 and 84-85). *)
Record State := mkState {
  heap : list Obj;                                   (* plain objects *)
  proxies : list ref;                                (* target of each Proxy *)
  reactors : list (fnid * sigid);                    (* [fn], [connectedSignal] of each closure *)
  listenersMap : gmap nat (gmap string (list nat));  (* signal -> property -> Set of reactors *)
  computeMap : gmap nat (list (string * list nat));  (* reactor -> property -> Set of signals *)
  computeStack : list rid;                           (* head = last array element *)
  signals : gmap nat nat;                            (* fn -> connectedSignal *)
  reactStack : list fnid;                            (* head = last array element *)
  trace : list Event
}.

Definition initial : State :=
  mkState [] [] [] ∅ ∅ [] ∅ [] [].

Definition with_heap (h : list Obj) (st : State) : State :=
  mkState h (proxies st) (reactors st) (listenersMap st) (computeMap st)
    (computeStack st) (signals st) (reactStack st) (trace st).
Definition with_proxies (x : list ref) (st : State) : State :=
  mkState (heap st) x (reactors st) (listenersMap st) (computeMap st)
    (computeStack st) (signals st) (reactStack st) (trace st).
Definition with_reactors (x : list (fnid * sigid)) (st : State) : State :=
  mkState (heap st) (proxies st) x (listenersMap st) (computeMap st)
    (computeStack st) (signals st) (reactStack st) (trace st).
Definition with_listenersMap (x : gmap nat (gmap string (list nat)))
  (st : State) : State :=
  mkState (heap st) (proxies st) (reactors st) x (computeMap st)
    (computeStack st) (signals st) (reactStack st) (trace st).
Definition with_computeMap (x : gmap nat (list (string * list nat)))
  (st : State) : State :=
  mkState (heap st) (proxies st) (reactors st) (listenersMap st) x
    (computeStack st) (signals st) (reactStack st) (trace st).
Definition with_computeStack (x : list rid) (st : State) : State :=
  mkState (heap st) (proxies st) (reactors st) (listenersMap st)
    (computeMap st) x (signals st) (reactStack st) (trace st).
Definition with_signals (x : gmap nat nat) (st : State) : State :=
  mkState (heap st) (proxies st) (reactors st) (listenersMap st)
    (computeMap st) (computeStack st) x (reactStack st) (trace st).
Definition with_reactStack (x : list fnid) (st : State) : State :=
  mkState (heap st) (proxies st) (reactors st) (listenersMap st)
    (computeMap st) (computeStack st) (signals st) x (trace st).
Definition log (e : Event) (st : State) : State :=
  mkState (heap st) (proxies st) (reactors st) (listenersMap st)
    (computeMap st) (computeStack st) (signals st) (reactStack st)
    (e :: trace st).

(** The object behind reference [r]. *)
Definition heap_obj (st : State) (r : ref) : Obj :=
  default empty_obj (heap st !! r).

Definition heap_set (r : ref) (p : string) (v : Value) (st : State) : State :=
  with_heap (<[r := obj_set (heap_obj st r) p v]> (heap st)) st.

Definition heap_delete (r : ref) (p : string) (st : State) : State :=
  with_heap (<[r := obj_delete (heap_obj st r) p]> (heap st)) st.

(** ** Outcomes and the state-and-exception monad *)

Inductive Error :=
| RecursiveInvocation (fn : fnid)  (* [Error('Recursive react() call', {cause:fn})] *)
| TypeError                        (* thrown by the host *)
| UserError.                       (* thrown by user code *)

Inductive Outcome (A : Type) :=
| Ok (a : A) (st : State)
| Raised (e : Error) (st : State)
| OutOfFuel.
Arguments Ok {A} a st.
Arguments Raised {A} e st.
Arguments OutOfFuel {A}.

Definition M (A : Type) : Type := State → Outcome A.

Definition ret {A} (a : A) : M A := λ st, Ok a st.
Definition raise {A} (e : Error) : M A := λ st, Raised e st.
Definition bind {A B} (m : M A) (k : A → M B) : M B :=
  λ st, match m st with
        | Ok a st' => k a st'
        | Raised e st' => Raised e st'
        | OutOfFuel => OutOfFuel
        end.
Definition gets {A} (f : State → A) : M A := λ st, Ok (f st) st.
Definition modify (f : State → State) : M unit := λ st, Ok tt (f st).

Notation "'let*' x ':=' m 'in' k" := (bind m (λ x, k))
  (at level 10, x name, m at level 100, k at level 200).

(** ** The listener graph (lines 61-107) *)

(** What [listeners[property]] evaluates to when it is not [undefined]:
    a [Set] of reactors the module has stored, or the member that the
    object literal inherits under that name. *)
Inductive Listeners :=
| Reactors (set : list rid)
| Inherited (len : nat).

(** [getListeners(self, property)]: [listenersMap.get(self)?.[property]].
    [self] is [None] when the caller passed [undefined]; a [WeakMap] has no
    entry for it. *)
Definition getListeners (self : option sigid) (property : string) (st : State)
  : option Listeners :=
  match self with
  | None => None
  | Some s =>
      match listenersMap st !! s with
      | Some listeners =>
          match inherited_member property with
          | Some len => Some (Inherited len)
          | None => Reactors <$> listeners !! property
          end
      | None => None
      end
  end.

(** Lines 70-72: [if (!listenersMap.has(self)) listenersMap.set(self, {})]. *)
Definition ensure_listeners (s : sigid) (st : State) : State :=
  match listenersMap st !! s with
  | Some _ => st
  | None => with_listenersMap (<[s := ∅]> (listenersMap st)) st
  end.

(** Lines 73-87 when [listeners[property]] and
    [connectedSignals[property]] are [undefined] or a [Set] of the module:
    the edge goes into both indexes. *)
Definition register_edge (s : sigid) (property : string) (compute : rid)
  (st : State) : State :=
  let listeners := default ∅ (listenersMap st !! s) in
  let set := default [] (listeners !! property) in
  let st1 :=
    with_listenersMap
      (<[s := <[property := set_add compute set]> listeners]>
         (listenersMap st)) st in
  let connectedSignals := default [] (computeMap st1 !! compute) in
  let set' := default [] (alookup property connectedSignals) in
  with_computeMap
    (<[compute := aset property (set_add s set') connectedSignals]>
       (computeMap st1)) st1.

(** [setListeners(self, property, compute)].  [listenersMap.has(undefined)]
    is false and [listenersMap.set(undefined, {})] throws a [TypeError]
    before anything is stored.  Under a member name of [Object.prototype],
    [listeners[property]] at line 74 is the inherited member: no [Set] is
    made, and the call of its [add] at line 77 throws a [TypeError]. *)
Definition setListeners (self : option sigid) (property : string)
  (compute : rid) : M unit :=
  match self with
  | None => raise TypeError
  | Some s =>
      let* _ := modify (ensure_listeners s) in
      match inherited_member property with
      | Some _ => raise TypeError
      | None => modify (register_edge s property compute)
      end
  end.

(** The innermost callback of [clearListeners]:
    [listeners[property].delete(compute)] when the set is there.
    [property] is a key of [connectedSignals], and so no member name of
    [Object.prototype]. *)
Definition clear_edge (compute : rid) (property : string) (s : sigid)
  (st : State) : State :=
  match listenersMap st !! s with
  | Some listeners =>
      match listeners !! property with
      | Some set =>
          with_listenersMap
            (<[s := <[property := set_delete compute set]> listeners]>
               (listenersMap st)) st
      | None => st
      end
  | None => st
  end.

(** [connectedSignals[property].forEach(s => ...)] *)
Definition clear_property (compute : rid) (property : string)
  (sigs : list sigid) (st : State) : State :=
  foldl (λ acc s, clear_edge compute property s acc) st sigs.

(** [Object.keys(connectedSignals).forEach(property => ...)] *)
Definition clear_entries (compute : rid)
  (connectedSignals : list (string * list sigid)) (st : State) : State :=
  foldl (λ acc '(property, sigs), clear_property compute property sigs acc)
    st connectedSignals.

(** [clearListeners(compute)].  [computeMap] is read and never written. *)
Definition clearListeners (compute : rid) (st : State) : State :=
  match computeMap st !! compute with
  | Some connectedSignals =>
      clear_entries compute (in_key_order connectedSignals) st
  | None => st
  end.

(** [notifyGet(self, property)] *)
Definition notifyGet (self : option sigid) (property : string) : M unit :=
  let* stack := gets computeStack in
  match stack with
  | currentCompute :: _ =>
      let* _ := modify (log (ERead currentCompute self property)) in
      setListeners self property currentCompute
  | [] => ret tt
  end.

(** ** User computations

    A computation is a finite tree of calls; each continuation receives what
    the call evaluated to. *)

Inductive Prog :=
| PRet (v : Value)                                          (* [return v] *)
| PThrow                                                    (* [throw new Error()] *)
| PNewObj (o : Obj) (k : ref → Prog)                        (* an object literal *)
| PRawGet (r : ref) (p : string) (k : Value → Prog)         (* [o.p], [o] a plain object *)
| PRawSet (r : ref) (p : string) (v : Value) (k : Prog)     (* [o.p = v] *)
| PSignal (r : ref) (k : sigid → Prog)                      (* [signal(o)] *)
| PGet (s : sigid) (p : string) (k : Value → Prog)          (* [s.p], [s] a signal *)
| PSet (s : sigid) (p : string) (v : Value) (k : Prog)      (* [s.p = v] *)
| PHas (s : sigid) (p : string) (k : bool → Prog)           (* [p in s] *)
| PDelete (strict : bool) (s : sigid) (p : string) (k : bool → Prog)
                                                            (* [delete s.p] *)
| PUpdate (f : fnid) (k : Value → Prog).                    (* [update(f)] *)

(** [c; k]: the computation [c], then [k] applied to what [c] returned. *)
Fixpoint pbind (c : Prog) (k : Value → Prog) : Prog :=
  match c with
  | PRet v => k v
  | PThrow => PThrow
  | PNewObj o c' => PNewObj o (λ r, pbind (c' r) k)
  | PRawGet r p c' => PRawGet r p (λ v, pbind (c' v) k)
  | PRawSet r p v c' => PRawSet r p v (pbind c' k)
  | PSignal r c' => PSignal r (λ s, pbind (c' s) k)
  | PGet s p c' => PGet s p (λ v, pbind (c' v) k)
  | PSet s p v c' => PSet s p v (pbind c' k)
  | PHas s p c' => PHas s p (λ b, pbind (c' b) k)
  | PDelete strict s p c' => PDelete strict s p (λ b, pbind (c' b) k)
  | PUpdate f c' => PUpdate f (λ v, pbind (c' v) k)
  end.

(** ** The module, one level of reactor calls at a time *)

Section Step.

(** The user functions, by identity. *)
Variable fns : fnid → Prog.

(** [listener()] for a reactor closure: what a nested call runs. *)
Variable call_reactor : rid → M unit.

(** [for (let listener of Array.from(listeners)) listener()] *)
Fixpoint call_all (listeners : list rid) : M unit :=
  match listeners with
  | [] => ret tt
  | listener :: rest => let* _ := call_reactor listener in call_all rest
  end.

(** [notifySet(self, property)] (lines 38-45).  [Array.from] of a member
    inherited from [Object.prototype] is an array of [length] times
    [undefined], and calling the first of them throws a [TypeError]. *)
Definition notifySet (self : option sigid) (property : string) : M unit :=
  let* listeners := gets (getListeners self property) in
  match listeners with
  | Some (Reactors snapshot) => call_all snapshot
  | Some (Inherited 0) => ret tt
  | Some (Inherited (S _)) => raise TypeError
  | None => ret tt
  end.

(** *** [signalHandler] (lines 1-23) *)

Definition signalHandler_get (target : ref) (property : string)
  (receiver : option sigid) : M Value :=
  let* _ := notifyGet receiver property in
  gets (λ st, obj_get (heap_obj st target) property).

Definition signalHandler_set (target : ref) (property : string)
  (value : Value) (receiver : option sigid) : M Value :=
  let* old := gets (λ st, obj_get (heap_obj st target) property) in
  if negb (strict_eq old value) then
    let* _ := modify (heap_set target property value) in
    let* _ := notifySet receiver property in
    ret (VBool true)
  else ret (VBool true).

Definition signalHandler_has (target : ref) (property : string)
  (receiver : option sigid) : M Value :=
  let* _ := notifyGet receiver property in
  gets (λ st, VBool (obj_hasOwn (heap_obj st target) property)).

Definition signalHandler_deleteProperty (target : ref) (property : string)
  (receiver : option sigid) : M Value :=
  let* old := gets (λ st, obj_get (heap_obj st target) property) in
  if is_defined old then
    let* _ := modify (heap_delete target property) in
    let* _ := notifySet receiver property in
    ret VUndef
  else ret VUndef.

(** *** How a Proxy calls its handler

    [[Get]] and [[Set]] pass the receiver, which is the proxy itself for
    [s.p] and [s.p = v].  [[HasProperty]] and [[Delete]] call their traps
    with [(target, property)] only, so the third parameter of
    [signalHandler.has] and [signalHandler.deleteProperty] is
    [undefined].  The result of the [has], [set] and [deleteProperty]
    traps goes through [ToBoolean]. *)

Definition target_of (s : sigid) : M ref :=
  let* t := gets (λ st, proxies st !! s) in
  match t with
  | Some target => ret target
  | None => raise TypeError
  end.

Definition proxy_get (s : sigid) (p : string) : M Value :=
  let* target := target_of s in
  signalHandler_get target p (Some s).

Definition proxy_set (s : sigid) (p : string) (v : Value) : M bool :=
  let* target := target_of s in
  let* r := signalHandler_set target p v (Some s) in
  ret (to_boolean r).

Definition proxy_has (s : sigid) (p : string) : M bool :=
  let* target := target_of s in
  let* r := signalHandler_has target p None in
  ret (to_boolean r).

Definition proxy_delete (s : sigid) (p : string) : M bool :=
  let* target := target_of s in
  let* r := signalHandler_deleteProperty target p None in
  ret (to_boolean r).

(** *** [signal(v)] (lines 29-31): [new Proxy(v, signalHandler)] throws a
    [TypeError] unless [v] is an object. *)
Definition signal (v : ref) : M sigid :=
  let* o := gets (λ st, heap st !! v) in
  match o with
  | Some _ =>
      let* s := gets (λ st, length (proxies st)) in
      let* _ := modify (λ st, with_proxies (proxies st ++ [v]) st) in
      ret s
  | None => raise TypeError
  end.

(** An object literal. *)
Definition new_object (o : Obj) : M ref :=
  let* r := gets (λ st, length (heap st)) in
  let* _ := modify (λ st, with_heap (heap st ++ [o]) st) in
  ret r.

(** *** [Object.assign(connectedSignal, result)] (line 135)

    The own keys of [result] are listed once, array indices first; each
    key that is still an own property when its turn comes is read from
    [result] and written to [connectedSignal] with an ordinary property
    write.  [undefined] and [null] are skipped, and the other primitives
    modelled here have no own keys. *)

Definition source_keys (result : Value) (st : State) : list string :=
  match result with
  | VObj r => own_keys (heap_obj st r)
  | VSig s =>
      match proxies st !! s with
      | Some target => own_keys (heap_obj st target)
      | None => []
      end
  | _ => []
  end.

Definition source_has_own (result : Value) (key : string) (st : State)
  : bool :=
  match result with
  | VObj r => obj_hasOwn (heap_obj st r) key
  | VSig s =>
      match proxies st !! s with
      | Some target => obj_hasOwn (heap_obj st target) key
      | None => false
      end
  | _ => false
  end.

Definition source_get (result : Value) (key : string) : M Value :=
  match result with
  | VObj r => gets (λ st, obj_get (heap_obj st r) key)
  | VSig s => proxy_get s key
  | _ => ret VUndef
  end.

Fixpoint assign_keys (to : sigid) (result : Value) (keys : list string)
  : M unit :=
  match keys with
  | [] => ret tt
  | key :: rest =>
      let* present := gets (source_has_own result key) in
      if (present : bool) then
        let* v := source_get result key in
        let* _ := proxy_set to key v in
        assign_keys to result rest
      else assign_keys to result rest
  end.

Definition object_assign (to : sigid) (result : Value) : M unit :=
  let* keys := gets (source_keys result) in
  assign_keys to result keys.

(** *** [update(fn)] (lines 119-139) *)
Definition update (fn : fnid) : M Value :=
  let* stack := gets reactStack in
  if decide (fn ∈ stack) then raise (RecursiveInvocation fn)
  else
    let* _ := modify (λ st, with_reactStack (fn :: reactStack st) st) in
    let* memo := gets (λ st, signals st !! fn) in
    let* connectedSignal :=
      match memo with
      | Some s => ret s
      | None =>
          let* o := new_object empty_obj in
          let* s := signal o in
          let* _ := modify (λ st, with_signals (<[fn := s]> (signals st)) st) in
          ret s
      end in
    let* reactor := gets (λ st, length (reactors st)) in
    let* _ :=
      modify (λ st,
        with_reactors (reactors st ++ [(fn, connectedSignal)]) st) in
    let* _ := call_reactor reactor in
    ret (VSig connectedSignal).

(** *** Running user code *)
Fixpoint run (c : Prog) : M Value :=
  match c with
  | PRet v => ret v
  | PThrow => raise UserError
  | PNewObj o k => let* r := new_object o in run (k r)
  | PRawGet r p k =>
      let* o := gets (λ st, heap st !! r) in
      match o with
      | Some o => run (k (obj_get o p))
      | None => raise TypeError
      end
  | PRawSet r p v k =>
      let* o := gets (λ st, heap st !! r) in
      match o with
      | Some _ => let* _ := modify (heap_set r p v) in run k
      | None => raise TypeError
      end
  | PSignal r k => let* s := signal r in run (k s)
  | PGet s p k => let* v := proxy_get s p in run (k v)
  | PSet s p v k =>
      let* ok := proxy_set s p v in
      if (ok : bool) then run k else raise TypeError
  | PHas s p k => let* b := proxy_has s p in run (k b)
  | PDelete strict s p k =>
      let* b := proxy_delete s p in
      if strict && negb b then raise TypeError else run (k b)
  | PUpdate f k => let* v := update f in run (k v)
  end.

(** *** The body of a [reactor] closure (lines 130-136), whose free
    variables [fn] and [connectedSignal] are read from the closure. *)
Definition reactor_body (reactor : rid) : M unit :=
  let* closure := gets (λ st, reactors st !! reactor) in
  match closure with
  | Some (fn, connectedSignal) =>
      let* _ := modify (log (ERun reactor)) in
      let* _ := modify (clearListeners reactor) in
      let* _ := modify (λ st, with_computeStack (reactor :: computeStack st) st) in
      let* result := run (fns fn) in
      let* _ := modify (λ st, with_computeStack (tail (computeStack st)) st) in
      object_assign connectedSignal result
  | None => raise TypeError
  end.

End Step.

(** A call of a reactor closure, with [fuel] bounding the depth of nested
    reactor calls. *)
Fixpoint reactor (fns : fnid → Prog) (fuel : nat) (r : rid) : M unit :=
  match fuel with
  | 0 => λ _, OutOfFuel
  | S n => reactor_body fns (reactor fns n) r
  end.

(** ** The operations as a top-level script sees them *)

Definition update_top (fns : fnid → Prog) (fuel : nat) (fn : fnid) : M Value :=
  update (reactor fns fuel) fn.

Definition exec (fns : fnid → Prog) (fuel : nat) (c : Prog) : M Value :=
  run (reactor fns fuel) c.

(** [s.p = v] at the top level of a script. *)
Definition write_top (fns : fnid → Prog) (fuel : nat) (s : sigid) (p : string)
  (v : Value) : M bool :=
  proxy_set (reactor fns fuel) s p v.

(** [delete s.p] at the top level of a script, before the [delete] operator
    looks at the result of the trap. *)
Definition delete_top (fns : fnid → Prog) (fuel : nat) (s : sigid)
  (p : string) : M bool :=
  proxy_delete (reactor fns fuel) s p.

(** ** The straight-line parts of [update] and [reactor], as state functions *)

(** Lines 125-129: the memoized output signal of [fn], created on first use. *)
Definition memo_signal (fn : fnid) (st : State) : sigid * State :=
  match signals st !! fn with
  | Some s => (s, st)
  | None =>
      let o := length (heap st) in
      let s := length (proxies st) in
      (s, with_signals (<[fn := s]> (signals st))
            (with_proxies (proxies st ++ [o])
               (with_heap (heap st ++ [empty_obj]) st)))
  end.

(** Lines 123-136: the output signal, the new closure and the state in which
    [update(fn)] calls it at line 137. *)
Definition update_entry (fn : fnid) (st : State) : sigid * rid * State :=
  let st1 := with_reactStack (fn :: reactStack st) st in
  let '(connectedSignal, st2) := memo_signal fn st1 in
  (connectedSignal, length (reactors st2),
   with_reactors (reactors st2 ++ [(fn, connectedSignal)]) st2).

(** Lines 131-132: the state in which a reactor calls [fn]. *)
Definition reactor_entry (r : rid) (st : State) : State :=
  let st1 := clearListeners r (log (ERun r) st) in
  with_computeStack (r :: computeStack st1) st1.

(** Line 134: [computeStack.pop()]. *)
Definition pop_computeStack (st : State) : State :=
  with_computeStack (tail (computeStack st)) st.

(** * What is observed of a state

    ** The listener graph as two edge relations *)

(** The forward index: the reactors [notifySet(s, p)] would call. *)
Definition listeners_of (st : State) (s : sigid) (p : string) : list rid :=
  match getListeners (Some s) p st with
  | Some (Reactors set) => set
  | _ => []
  end.

(** The back index: the signals [clearListeners(r)] would visit for [p]. *)
Definition signals_of (st : State) (r : rid) (p : string) : list sigid :=
  match computeMap st !! r with
  | Some connectedSignals => default [] (alookup p connectedSignals)
  | None => []
  end.

Definition forward (st : State) (s : sigid) (p : string) (r : rid) : Prop :=
  r ∈ listeners_of st s p.

Definition back (st : State) (r : rid) (p : string) (s : sigid) : Prop :=
  s ∈ signals_of st r p.

Definition in_forward (st : State) (s : sigid) (p : string) (r : rid) : bool :=
  bool_decide (r ∈ listeners_of st s p).

Definition in_back (st : State) (r : rid) (p : string) (s : sigid) : bool :=
  bool_decide (s ∈ signals_of st r p).

(** Every forward edge has its back edge. *)
Definition forward_in_back (st : State) : Prop :=
  ∀ s p r, forward st s p r → back st r p s.

(** The two indexes are mutual inverses. *)
Definition mutual_inverse (st : State) : Prop :=
  ∀ s p r, forward st s p r ↔ back st r p s.

(** ** Properties of objects and the trace *)

(** The own property [key] of object [target], if it has one. *)
Definition own_property (st : State) (target : ref) (key : string)
  : option Value :=
  alookup key (own (heap_obj st target)).

(** The events logged between [st] and a later state [st']. *)
Definition events_since (st st' : State) : list Event :=
  take (length (trace st') - length (trace st)) (trace st').

(** The events logged since the body of reactor [r] was last entered,
    newest first. *)
Fixpoint since_run (r : rid) (events : list Event) : list Event :=
  match events with
  | [] => []
  | e :: rest => if decide (e = ERun r) then [] else e :: since_run r rest
  end.

(** How many times the body of reactor [r] was entered between two states. *)
Definition runs_since (st st' : State) (r : rid) : nat :=
  length (filter (λ e, e = ERun r) (events_since st st')).

(** * State relations kept by every operation

    [keeps Rok Rerr m]: when [m] returns, the state it leaves is
    [Rok]-related to the state it started in; when it throws, the state it
    leaves is [Rerr]-related to it. *)

Definition outcome_rel {A} (Rok Rerr : State → State → Prop) (st : State)
  (o : Outcome A) : Prop :=
  match o with
  | Ok _ st' => Rok st st'
  | Raised _ st' => Rerr st st'
  | OutOfFuel => True
  end.

Definition keeps {A} (Rok Rerr : State → State → Prop) (m : M A) : Prop :=
  ∀ st, outcome_rel Rok Rerr st (m st).

(** A pair of relations that every step of the module respects: [Rok]
    along the steps of a call that returns, [Rerr] up to the point where a
    call throws.  The last three fields are about a reactor call as a whole,
    which pushes itself before [fn] runs and pops itself after. *)
Record step_closed (Rok Rerr : State → State → Prop) : Prop := {
  sc_refl : ∀ st, Rok st st;
  sc_trans : ∀ a b c, Rok a b → Rok b c → Rok a c;
  sc_raise : ∀ st, Rerr st st;
  sc_fail : ∀ a b c, Rok a b → Rerr b c → Rerr a c;
  sc_notifyGet : ∀ self p, keeps Rok Rerr (notifyGet self p);
  sc_heap : ∀ h st, Rok st (with_heap h st);
  sc_proxies : ∀ v st, Rok st (with_proxies (proxies st ++ [v]) st);
  sc_reactors : ∀ c st, Rok st (with_reactors (reactors st ++ [c]) st);
  sc_guard : ∀ f st, Rok st (with_reactStack (f :: reactStack st) st);
  sc_memo : ∀ f s st, Rok st (with_signals (<[f := s]> (signals st)) st);
  sc_run : ∀ r st st2 st3,
    Rok (reactor_entry r st) st2 → Rok (pop_computeStack st2) st3 →
    Rok st st3;
  sc_run_fails : ∀ r st st2, Rerr (reactor_entry r st) st2 → Rerr st st2;
  sc_merge_fails : ∀ r st st2 st3,
    Rok (reactor_entry r st) st2 → Rerr (pop_computeStack st2) st3 →
    Rerr st st3
}.

(** The fields [clearListeners] leaves alone. *)
Definition only_listeners_changed (st st' : State) : Prop :=
  computeMap st' = computeMap st ∧ trace st' = trace st
  ∧ reactStack st' = reactStack st ∧ computeStack st' = computeStack st
  ∧ heap st' = heap st ∧ proxies st' = proxies st
  ∧ reactors st' = reactors st.

(** A read that [notifyGet] attributes to reactor [c] and that ends in a
    [TypeError]: the read is logged, and no edge has been added. *)
Definition read_refused (c : rid) (self : option sigid) (p : string)
  (st st' : State) : Prop :=
  (self = None ∨ is_Some (inherited_member p))
  ∧ trace st' = ERead c self p :: trace st
  ∧ (∀ s' p', listeners_of st' s' p' = listeners_of st s' p')
  ∧ computeMap st' = computeMap st ∧ reactStack st' = reactStack st
  ∧ computeStack st' = computeStack st ∧ heap st' = heap st
  ∧ proxies st' = proxies st ∧ reactors st' = reactors st.

(** The run-guard stack only grows. *)
Definition guard_grows (st st' : State) : Prop :=
  ∀ f, f ∈ reactStack st → f ∈ reactStack st'.

(** The trace is extended, and every forward edge that is new has a read
    attributed to its reactor among the new events. *)
Definition edges_from_reads (st st' : State) : Prop :=
  ∃ new : list Event, trace st' = new ++ trace st
    ∧ ∀ s p r, forward st' s p r →
        forward st s p r ∨ ERead r (Some s) p ∈ new.

(** Every read of [s.p] attributed to a reactor since its latest run began
    has its forward edge ([p] not a member name of [Object.prototype]). *)
Definition reads_registered (st : State) : Prop :=
  ∀ r s p, inherited_member p = None →
    ERead r (Some s) p ∈ since_run r (trace st) → forward st s p r.

Definition keeps_reads_registered (st st' : State) : Prop :=
  reads_registered st → reads_registered st'.

(** [forward_in_back] is kept. *)
Definition keeps_forward_in_back (st st' : State) : Prop :=
  forward_in_back st → forward_in_back st'.

(** A proxy keeps its target. *)
Definition proxies_grow (st st' : State) : Prop :=
  ∀ s t, proxies st !! s = Some t → proxies st' !! s = Some t.

(** [computeStack] is as it was. *)
Definition stack_kept (st st' : State) : Prop :=
  computeStack st' = computeStack st.

(** [computeStack] has kept every frame it had, under the frames left by
    the calls that threw. *)
Definition stack_extended (st st' : State) : Prop :=
  ∃ left_over, computeStack st' = left_over ++ computeStack st.

(** What holds before each key of a merge that wakes nobody: the source
    object [r] is untouched, the signal [to] is where it was, and no reactor
    is registered for the keys to come, none of which is a member name of
    [Object.prototype]. *)
Definition merge_quiet (to : sigid) (target r : ref) (o : Obj)
  (keys : list string) (st : State) : Prop :=
  proxies st !! to = Some target
  ∧ heap st !! r = Some o
  ∧ target < length (heap st)
  ∧ ∀ k, k ∈ keys → inherited_member k = None ∧ listeners_of st to k = [].

(** * Scenarios *)

(** The end-to-end scenario: [const fn = () => ({d: counter.n * 2})] for
    the signal [counter] with identity 0. *)
Definition fns_doubled : fnid → Prog :=
  λ _, PGet 0 "n" (λ v,
         match v with
         | VNum z => PNewObj (mkObj [("d", VNum (z * 2))] []) (λ r, PRet (VObj r))
         | _ => PThrow
         end).

(** [const counter = signal({n: 0}); const doubled = update(fn);
    const before = doubled.d; counter.n = 5; return doubled.d - before] *)
Definition doubled_script : Prog :=
  PNewObj (mkObj [("n", VNum 0)] []) (λ o,
  PSignal o (λ counter,
  PUpdate 0 (λ doubled,
    match doubled with
    | VSig d =>
        PGet d "d" (λ before,
        PSet counter "n" (VNum 5) (
        PGet d "d" (λ after,
          match before, after with
          | VNum x, VNum y => PRet (VNum (y - x))
          | _, _ => PThrow
          end)))
    | _ => PThrow
    end))).

(** [const fn = () => ({})] *)
Definition fns_empty : fnid → Prog :=
  λ _, PNewObj empty_obj (λ r, PRet (VObj r)).

(** The state after [update(fn)] has returned once, from a fresh module. *)
Definition after_first_update : State :=
  match update_top fns_empty 1 0 initial with
  | Ok _ st => st
  | _ => initial
  end.

(** [const fn = () => { throw new Error() }] *)
Definition fns_throw : fnid → Prog := λ _, PThrow.

(** The state in which [update(f)] calls its reactor, for function 0 on a
    fresh module: closure 0 over output signal 0. *)
Definition fresh_entry : State := (update_entry 0 initial).2.

(** [const fn = () => { const t = signal({}); return update(fn) }] *)
Definition reenter_prefix : Prog :=
  PNewObj empty_obj (λ o, PSignal o (λ t, PRet (VSig t))).

Definition fns_reenter : fnid → Prog :=
  λ f, pbind reenter_prefix (λ _, PUpdate f PRet).

(** The state in which that computation calls [update(fn)]. *)
Definition reenter_prefix_done : State :=
  match run (reactor fns_reenter 0) reenter_prefix
          (reactor_entry 0 fresh_entry) with
  | Ok _ st => st
  | _ => initial
  end.

(** [const fn = () => { s.x = s.x + 1; return {} }] for the signal [s]
    with identity 0. *)
Definition fns_selfwrite : fnid → Prog :=
  λ _, PGet 0 "x" (λ v,
         match v with
         | VNum z =>
             PSet 0 "x" (VNum (z + 1))
               (PNewObj empty_obj (λ r, PRet (VObj r)))
         | _ => PThrow
         end).

(** The state after [const s = signal({x: 0})], from a fresh module. *)
Definition selfwrite_start : State :=
  with_proxies [0] (with_heap [mkObj [("x", VNum 0)] []] initial).

(** What every state reached inside the self-writing reactor satisfies:
    signal 0 wraps object 0, whose [x] holds a number; closure 0 exists; and
    nothing but closure 0 listens to [x]. *)
Definition selfwrite_inv (st : State) : Prop :=
  proxies st !! 0 = Some 0
  ∧ (∃ z, alookup "x" (own (heap_obj st 0)) = Some (VNum z))
  ∧ 0 < length (heap st)
  ∧ is_Some (reactors st !! 0)
  ∧ ∀ r, r ∈ listeners_of st 0 "x" → r = 0.

(** The graph after [setListeners(s, "p", r)] on a fresh module, and after
    [clearListeners(r)] on top of that, for signal 0 and closure 0. *)
Definition edge_registered : State :=
  match setListeners (Some 0) "p" 0 initial with
  | Ok _ st => st
  | _ => initial
  end.

Definition edge_cleared : State := clearListeners 0 edge_registered.

(** Two reactors over the signals [s] (identity 0) and [t] (identity 1):
    function 0 is [() => { s.p; t.q; return {} }], every other function is
    [() => { t.q = s.p; return {} }]. *)
Definition fns_diamond : fnid → Prog :=
  λ f, match f with
       | 0 =>
           PGet 0 "p" (λ _, PGet 1 "q" (λ _,
             PNewObj empty_obj (λ r, PRet (VObj r))))
       | _ =>
           PGet 0 "p" (λ v, PSet 1 "q" v
             (PNewObj empty_obj (λ r, PRet (VObj r))))
       end.

(** [const s = signal({p: 0}), t = signal({q: 0}); update(f0); update(f1)] *)
Definition diamond_script : Prog :=
  PNewObj (mkObj [("p", VNum 0)] []) (λ o1, PSignal o1 (λ _,
  PNewObj (mkObj [("q", VNum 0)] []) (λ o2, PSignal o2 (λ _,
  PUpdate 0 (λ _, PUpdate 1 (λ _, PRet VUndef)))))).

Definition diamond_start : State :=
  match exec fns_diamond 1 diamond_script initial with
  | Ok _ st => st
  | _ => initial
  end.

(** The state after [s.p = 1]. *)
Definition diamond_after : State :=
  match write_top fns_diamond 3 0 "p" (VNum 1) diamond_start with
  | Ok _ st => st
  | _ => initial
  end.

(** The state after [const s = signal({p: undefined})]. *)
Definition undefined_property_start : State :=
  with_proxies [0] (with_heap [mkObj [("p", VUndef)] []] initial).


(** [const out = signal({a: 1, b: 2}); const result = {a: 3}] *)
Definition shrink_start : State :=
  with_proxies [0]
    (with_heap [mkObj [("a", VNum 1); ("b", VNum 2)] [];
                mkObj [("a", VNum 3)] []] initial).

(** The state after [Object.assign(out, result)]. *)
Definition shrink_after : State :=
  match object_assign (reactor fns_empty 0) 0 (VObj 1) shrink_start with
  | Ok _ st => st
  | _ => initial
  end.

(** [const fn = () => s.flag ? { seen: s.p } : {}] for the signal [s] with
    identity 0. *)
Definition fns_conditional : fnid → Prog :=
  λ _, PGet 0 "flag" (λ v,
         match v with
         | VBool true =>
             PGet 0 "p" (λ w,
               PNewObj (mkObj [("seen", w)] []) (λ r, PRet (VObj r)))
         | _ => PNewObj empty_obj (λ r, PRet (VObj r))
         end).

(** [const s = signal({flag: true, p: 0}); update(fn)] *)
Definition conditional_script : Prog :=
  PNewObj (mkObj [("flag", VBool true); ("p", VNum 0)] []) (λ o,
  PSignal o (λ _, PUpdate 0 (λ _, PRet VUndef))).

(** After the first run, in the state in which [s.flag = false] calls the
    reactor: [flag] is off, and the next run of the reactor is the one that
    does not read [s.p]. *)
Definition conditional_start : State :=
  match exec fns_conditional 1 conditional_script initial with
  | Ok _ st => heap_set 0 "flag" (VBool false) st
  | _ => initial
  end.

Definition conditional_after : State :=
  match reactor fns_conditional 1 0 conditional_start with
  | Ok _ st => st
  | _ => initial
  end.

(** [const o = {x: 1}, t = signal(o), s = signal({inner: o})] and
    [const fn = () => ({seen: t.x})]: the object [o] is reached as [s.inner]
    and through the signal [t], which has identity 0; [s] has identity 1. *)
Definition fns_inner : fnid → Prog :=
  λ _, PGet 0 "x" (λ v, PNewObj (mkObj [("seen", v)] []) (λ r, PRet (VObj r))).

(** [const o = {x: 1}, t = signal(o), s = signal({inner: o}); update(fn)] *)
Definition nested_script : Prog :=
  PNewObj (mkObj [("x", VNum 1)] []) (λ o, PSignal o (λ _,
  PNewObj (mkObj [("inner", VObj o)] []) (λ o', PSignal o' (λ _,
  PUpdate 0 (λ _, PRet VUndef))))).

Definition nested_start : State :=
  match exec fns_inner 1 nested_script initial with
  | Ok _ st => st
  | _ => initial
  end.

(** [s.inner.x = 2], for a value of [s.inner] that is a plain object. *)
Definition nested_write : Prog :=
  PGet 1 "inner" (λ inner,
    match inner with
    | VObj n => PRawSet n "x" (VNum 2) (PRet VUndef)
    | _ => PThrow
    end).

(** [const s = signal({inner: signal({x: 1})})] and
    [const fn = () => ({seen: s.inner.x})]: the inner signal has identity 0
    and [s] identity 1. *)
Definition fns_nested : fnid → Prog :=
  λ _, PGet 1 "inner" (λ inner,
         match inner with
         | VSig t =>
             PGet t "x" (λ w,
               PNewObj (mkObj [("seen", w)] []) (λ r, PRet (VObj r)))
         | _ => PThrow
         end).

(** [const s = signal({inner: signal({x: 1})}); update(fn)] *)
Definition nested_signal_script : Prog :=
  PNewObj (mkObj [("x", VNum 1)] []) (λ o, PSignal o (λ t,
  PNewObj (mkObj [("inner", VSig t)] []) (λ o', PSignal o' (λ _,
  PUpdate 0 (λ _, PRet VUndef))))).

Definition nested_signal_start : State :=
  match exec fns_nested 1 nested_signal_script initial with
  | Ok _ st => st
  | _ => initial
  end.

(** [s.inner.x = 2], for a value of [s.inner] that is a signal. *)
Definition nested_signal_write : Prog :=
  PGet 1 "inner" (λ inner,
    match inner with
    | VSig t => PSet t "x" (VNum 2) (PRet VUndef)
    | _ => PThrow
    end).








(** * Further scenarios *)

(** The state the end-to-end script ends in. *)
Definition doubled_end : State :=
  match exec fns_doubled 1 doubled_script initial with
  | Ok _ st => st
  | _ => initial
  end.

(** The end-to-end scenario step by step: the state after
    [const counter = signal({n: 0})], the state in which [update(fn)] calls
    its reactor, and the state in which [fn] has returned [{d: 0}]. *)
Definition doubled_counter : State :=
  with_proxies [0] (with_heap [mkObj [("n", VNum 0)] []] initial).

Definition doubled_entry : State := (update_entry 0 doubled_counter).2.

Definition doubled_returned : State :=
  match run (reactor fns_doubled 0) (fns_doubled 0)
          (reactor_entry 0 doubled_entry) with
  | Ok _ st => st
  | _ => initial
  end.

(** The state [update(fn)] leaves behind when [fn] throws, on a fresh
    module. *)
Definition after_failed_update : State := reactor_entry 0 fresh_entry.

(** Two signals over one object, and a reactor that reads through the
    second: [const o = {p: 0}; const s1 = signal(o), s2 = signal(o);
    update(() => ({seen: s2.p}))]. *)
Definition fns_alias : fnid → Prog :=
  λ _, PGet 1 "p" (λ v, PNewObj (mkObj [("seen", v)] []) (λ r, PRet (VObj r))).

Definition alias_script : Prog :=
  PNewObj (mkObj [("p", VNum 0)] []) (λ o,
  PSignal o (λ _, PSignal o (λ _, PUpdate 0 (λ _, PRet VUndef)))).

Definition alias_start : State :=
  match exec fns_alias 1 alias_script initial with
  | Ok _ st => st
  | _ => initial
  end.

(** A closure, once made, stays what it is. *)
Definition reactors_grow (st st' : State) : Prop :=
  ∀ r c, reactors st !! r = Some c → reactors st' !! r = Some c.

(** [const fn = () => ({found: "p" in s})] for the signal [s] with
    identity 0. *)
Definition fns_has : fnid → Prog :=
  λ _, PHas 0 "p" (λ b,
         PNewObj (mkObj [("found", VBool b)] []) (λ r, PRet (VObj r))).

(** [const f = () => update(g), g = () => update(f)]: function 0 calls
    [update] on function 1 and every other function calls it on
    function 0. *)
Definition fns_mutual : fnid → Prog :=
  λ f, match f with
       | 0 => PUpdate 1 PRet
       | _ => PUpdate 0 PRet
       end.

(** * Properties *)
(** ** [update] and [reactor] unfolded *)

Lemma update_unfold call_reactor fn st :
  update call_reactor fn st =
  if decide (fn ∈ reactStack st) then Raised (RecursiveInvocation fn) st
  else
    let '(connectedSignal, r, st2) := update_entry fn st in
    match call_reactor r st2 with
    | Ok _ st3 => Ok (VSig connectedSignal) st3
    | Raised e st3 => Raised e st3
    | OutOfFuel => OutOfFuel
    end.
Proof.
  unfold update, update_entry, memo_signal, bind, gets, modify, ret, raise.
  case_decide; [done|]. simpl.
  destruct (signals st !! fn) as [s|]; [done|].
  unfold new_object, signal, bind, gets, modify, ret, raise. simpl.
  rewrite list_lookup_middle by done. done.
Qed.

Lemma reactor_body_unfold fns call_reactor r st :
  reactor_body fns call_reactor r st =
  match reactors st !! r with
  | Some (fn, connectedSignal) =>
      match run call_reactor (fns fn) (reactor_entry r st) with
      | Ok result st2 =>
          object_assign call_reactor connectedSignal result
            (pop_computeStack st2)
      | Raised e st2 => Raised e st2
      | OutOfFuel => OutOfFuel
      end
  | None => Raised TypeError st
  end.
Proof.
  unfold reactor_body, bind, gets, modify, raise.
  by destruct (reactors st !! r) as [[fn cs]|].
Qed.

Ltac keeps_match :=
  match goal with
  | |- keeps _ _ (match ?x with _ => _ end) => destruct x
  | |- keeps _ _ (if ?x then _ else _) => destruct x
  end.

Section Keeps.

Variables Rok Rerr : State → State → Prop.
Hypothesis Rok_refl : ∀ st, Rok st st.
Hypothesis Rok_trans : ∀ a b c, Rok a b → Rok b c → Rok a c.
Hypothesis Rerr_refl : ∀ st, Rerr st st.
Hypothesis Rok_Rerr : ∀ a b c, Rok a b → Rerr b c → Rerr a c.

Lemma keeps_ret {A} (a : A) : keeps Rok Rerr (ret a).
Proof. intros st. apply Rok_refl. Qed.

Lemma keeps_raise {A} (e : Error) : keeps Rok Rerr (raise (A := A) e).
Proof. intros st. apply Rerr_refl. Qed.

Lemma keeps_gets {A} (f : State → A) : keeps Rok Rerr (gets f).
Proof. intros st. apply Rok_refl. Qed.

Lemma keeps_modify (f : State → State) :
  (∀ st, Rok st (f st)) → keeps Rok Rerr (modify f).
Proof. intros H st. apply H. Qed.

Lemma keeps_bind {A B} (m : M A) (k : A → M B) :
  keeps Rok Rerr m → (∀ a, keeps Rok Rerr (k a)) → keeps Rok Rerr (bind m k).
Proof.
  intros Hm Hk st. unfold bind. specialize (Hm st).
  destruct (m st) as [a st'| e st'|]; simpl in *; auto.
  specialize (Hk a st').
  destruct (k a st'); simpl in *; eauto.
Qed.

(** The steps that write the state. *)
Hypothesis R_notifyGet : ∀ self p, keeps Rok Rerr (notifyGet self p).
Hypothesis R_heap : ∀ h st, Rok st (with_heap h st).
Hypothesis R_proxies : ∀ v st, Rok st (with_proxies (proxies st ++ [v]) st).
Hypothesis R_reactors :
  ∀ c st, Rok st (with_reactors (reactors st ++ [c]) st).
Hypothesis R_guard :
  ∀ f st, Rok st (with_reactStack (f :: reactStack st) st).
Hypothesis R_memo :
  ∀ f s st, Rok st (with_signals (<[f := s]> (signals st)) st).

(** A reactor call as a whole. *)
Hypothesis R_run : ∀ r st st2 st3,
  Rok (reactor_entry r st) st2 → Rok (pop_computeStack st2) st3 →
  Rok st st3.
Hypothesis R_run_fails :
  ∀ r st st2, Rerr (reactor_entry r st) st2 → Rerr st st2.
Hypothesis R_merge_fails : ∀ r st st2 st3,
  Rok (reactor_entry r st) st2 → Rerr (pop_computeStack st2) st3 →
  Rerr st st3.

Variable fns : fnid → Prog.
Variable call_reactor : rid → M unit.
Hypothesis call_keeps : ∀ r, keeps Rok Rerr (call_reactor r).

Ltac keeps_auto :=
  repeat
    match goal with
    | |- keeps _ _ _ => solve [ auto ]
    | |- keeps _ _ (ret _) => apply keeps_ret
    | |- keeps _ _ (raise _) => apply keeps_raise
    | |- keeps _ _ (gets _) => apply keeps_gets
    | |- keeps _ _ (modify _) =>
        apply keeps_modify; intros; unfold heap_set, heap_delete;
        solve [ auto ]
    | |- keeps _ _ (bind _ _) => apply keeps_bind; [ | intros ? ]
    | |- _ => keeps_match
    end.

Lemma call_all_keeps ls : keeps Rok Rerr (call_all call_reactor ls).
Proof. induction ls; simpl; keeps_auto. Qed.

Lemma notifySet_keeps self p : keeps Rok Rerr (notifySet call_reactor self p).
Proof. unfold notifySet. keeps_auto. apply call_all_keeps. Qed.

Lemma signalHandler_get_keeps t p rcv : keeps Rok Rerr (signalHandler_get t p rcv).
Proof. unfold signalHandler_get. keeps_auto. Qed.

Lemma signalHandler_has_keeps t p rcv : keeps Rok Rerr (signalHandler_has t p rcv).
Proof. unfold signalHandler_has. keeps_auto. Qed.

Lemma signalHandler_set_keeps t p v rcv :
  keeps Rok Rerr (signalHandler_set call_reactor t p v rcv).
Proof. unfold signalHandler_set. keeps_auto. apply notifySet_keeps. Qed.

Lemma signalHandler_deleteProperty_keeps t p rcv :
  keeps Rok Rerr (signalHandler_deleteProperty call_reactor t p rcv).
Proof.
  unfold signalHandler_deleteProperty. keeps_auto. apply notifySet_keeps.
Qed.

Lemma target_of_keeps s : keeps Rok Rerr (target_of s).
Proof. unfold target_of. keeps_auto. Qed.

Lemma proxy_get_keeps s p : keeps Rok Rerr (proxy_get s p).
Proof.
  unfold proxy_get. keeps_auto;
    [ apply target_of_keeps | apply signalHandler_get_keeps ].
Qed.

Lemma proxy_set_keeps s p v : keeps Rok Rerr (proxy_set call_reactor s p v).
Proof.
  unfold proxy_set. keeps_auto;
    [ apply target_of_keeps | apply signalHandler_set_keeps ].
Qed.

Lemma proxy_has_keeps s p : keeps Rok Rerr (proxy_has s p).
Proof.
  unfold proxy_has. keeps_auto;
    [ apply target_of_keeps | apply signalHandler_has_keeps ].
Qed.

Lemma proxy_delete_keeps s p : keeps Rok Rerr (proxy_delete call_reactor s p).
Proof.
  unfold proxy_delete. keeps_auto;
    [ apply target_of_keeps | apply signalHandler_deleteProperty_keeps ].
Qed.

Lemma signal_keeps v : keeps Rok Rerr (signal v).
Proof. unfold signal. keeps_auto. Qed.

Lemma new_object_keeps o : keeps Rok Rerr (new_object o).
Proof. unfold new_object. keeps_auto. Qed.

Lemma source_get_keeps result key : keeps Rok Rerr (source_get result key).
Proof. destruct result; simpl; keeps_auto. apply proxy_get_keeps. Qed.

Lemma assign_keys_keeps to result keys :
  keeps Rok Rerr (assign_keys call_reactor to result keys).
Proof.
  induction keys; simpl; keeps_auto;
    [ apply source_get_keeps | apply proxy_set_keeps ].
Qed.

Lemma object_assign_keeps to result :
  keeps Rok Rerr (object_assign call_reactor to result).
Proof. unfold object_assign. keeps_auto. apply assign_keys_keeps. Qed.

Lemma update_keeps fn : keeps Rok Rerr (update call_reactor fn).
Proof.
  unfold update. keeps_auto;
    [ apply new_object_keeps | apply signal_keeps ].
Qed.

Lemma run_keeps c : keeps Rok Rerr (run call_reactor c).
Proof.
  induction c; simpl; keeps_auto;
    first [ apply new_object_keeps | apply signal_keeps
          | apply proxy_get_keeps | apply proxy_set_keeps
          | apply proxy_has_keeps | apply proxy_delete_keeps
          | apply update_keeps ].
Qed.

Lemma reactor_body_keeps r :
  keeps Rok Rerr (reactor_body fns call_reactor r).
Proof.
  intros st. rewrite reactor_body_unfold.
  destruct (reactors st !! r) as [[fn cs]|]; [|apply Rerr_refl].
  pose proof (run_keeps (fns fn) (reactor_entry r st)) as Hrun.
  destruct (run call_reactor (fns fn) (reactor_entry r st))
    as [result st2|e st2|]; simpl in *; [|by apply (R_run_fails r)|done].
  pose proof (object_assign_keeps cs result (pop_computeStack st2)) as Hm.
  destruct (object_assign call_reactor cs result (pop_computeStack st2))
    as [[] st3|e st3|]; simpl in *.
  - by apply (R_run r st st2).
  - by apply (R_merge_fails r st st2).
  - done.
Qed.

End Keeps.


(** ** Association lists and sets *)

Lemma alookup_aset {A} (k k' : string) (v : A) l :
  alookup k (aset k' v l) = if decide (k = k') then Some v else alookup k l.
Proof.
  induction l as [|[k0 v0] l IH]; simpl.
  - repeat case_decide; congruence.
  - repeat (case_decide; simpl); try congruence.
Qed.

Lemma alookup_adelete {A} (k k' : string) (l : list (string * A)) :
  alookup k (adelete k' l) = if decide (k = k') then None else alookup k l.
Proof.
  induction l as [|[k0 v0] l IH]; simpl.
  - by case_decide.
  - repeat (case_decide; simpl); try congruence.
Qed.

Lemma alookup_Some_elem {A} (k : string) (v : A) l :
  alookup k l = Some v → (k, v) ∈ l.
Proof.
  induction l as [|[k0 v0] l IH]; simpl; [done|].
  case_decide as Hk; intros Hl.
  - inversion Hl; subst. apply elem_of_cons. by left.
  - apply elem_of_cons. right. auto.
Qed.

Lemma alookup_None_keys {A} (k : string) (l : list (string * A)) :
  alookup k l = None ↔ k ∉ l.*1.
Proof.
  induction l as [|[k0 v0] l IH]; simpl.
  - split; [intros _; apply not_elem_of_nil | done].
  - rewrite elem_of_cons. case_decide as Hk; simpl.
    + split; [done | intros Hn; exfalso; apply Hn; by left].
    + rewrite IH. split; [intros H1 [?|?]; done|].
      intros H1 H2; apply H1; by right.
Qed.

Lemma elem_of_set_add x y l : x ∈ set_add y l ↔ x = y ∨ x ∈ l.
Proof.
  unfold set_add. case_decide.
  - split; [by right | intros [->|?]; done].
  - rewrite elem_of_app, list_elem_of_singleton. tauto.
Qed.

Lemma elem_of_set_delete x y l : x ∈ set_delete y l ↔ x ≠ y ∧ x ∈ l.
Proof. unfold set_delete. by rewrite list_elem_of_filter. Qed.

(** ** The order of own keys *)

Lemma in_key_order_elem {A} (x : string * A) l : x ∈ in_key_order l ↔ x ∈ l.
Proof.
  unfold in_key_order. rewrite elem_of_app, list_elem_of_fmap.
  rewrite list_elem_of_filter. split.
  - intros [([n y] & -> & Hin)|[_ Hin]]; [|done].
    rewrite merge_sort_Permutation in Hin.
    apply list_elem_of_omap in Hin as (kv & Hkv & Heq).
    destruct (array_index kv.1); simpl in Heq; [|done].
    by inversion Heq; subst.
  - intros Hin. destruct (array_index x.1) as [n|] eqn:Hn; [left | by right].
    exists (n, x). split; [done|]. rewrite merge_sort_Permutation.
    apply list_elem_of_omap. exists x. split; [done|]. by rewrite Hn.
Qed.

Lemma own_keys_elem o k : k ∈ own_keys o ↔ k ∈ (own o).*1.
Proof.
  unfold own_keys. rewrite !list_elem_of_fmap.
  split; intros (x & -> & Hin); exists x; (split; [done|]);
    by apply in_key_order_elem.
Qed.

(** ** What the two mutators do to the edge relations *)

Lemma listeners_of_log e st s p :
  listeners_of (log e st) s p = listeners_of st s p.
Proof. reflexivity. Qed.

(** Where no name is inherited a listener set is what the map holds. *)
Lemma listeners_of_own st s p :
  inherited_member p = None →
  listeners_of st s p
  = default [] (default ∅ (listenersMap st !! s) !! p).
Proof.
  intros Hp. unfold listeners_of, getListeners. rewrite Hp.
  destruct (listenersMap st !! s) as [L|]; simpl; [|by rewrite lookup_empty].
  by destruct (L !! p).
Qed.

Lemma listeners_of_inherited st s p :
  is_Some (inherited_member p) → listeners_of st s p = [].
Proof.
  intros [n Hp]. unfold listeners_of, getListeners. rewrite Hp.
  by destruct (listenersMap st !! s).
Qed.

(** A state with the same listener map has the same listener sets. *)
Lemma listeners_of_same st st' :
  listenersMap st' = listenersMap st →
  ∀ s p, listeners_of st' s p = listeners_of st s p.
Proof. intros H s p. unfold listeners_of, getListeners. by rewrite H. Qed.

(** Lines 70-72 give [self] an empty map, and no listener set changes. *)
Lemma ensure_listeners_listeners s st s' p' :
  listeners_of (ensure_listeners s st) s' p' = listeners_of st s' p'.
Proof.
  unfold ensure_listeners. destruct (listenersMap st !! s) as [L|] eqn:HL;
    [done|].
  unfold listeners_of, getListeners. simpl.
  destruct (decide (s' = s)) as [->|Hs].
  - rewrite lookup_insert_eq, HL.
    destruct (inherited_member p'); [done|]. by rewrite lookup_empty.
  - by rewrite lookup_insert_ne.
Qed.

Lemma register_edge_ensure s p c st :
  register_edge s p c (ensure_listeners s st) = register_edge s p c st.
Proof.
  unfold ensure_listeners. destruct (listenersMap st !! s) as [L|] eqn:HL;
    [done|].
  unfold register_edge. simpl. rewrite lookup_insert_eq, HL. simpl.
  by rewrite insert_insert_eq.
Qed.

Lemma setListeners_register s p c st :
  inherited_member p = None →
  setListeners (Some s) p c st = Ok tt (register_edge s p c st).
Proof.
  intros Hp. unfold setListeners, bind, modify. rewrite Hp.
  by rewrite register_edge_ensure.
Qed.

(** Under a member name of [Object.prototype] nothing is registered. *)
Lemma setListeners_inherited s p c st :
  is_Some (inherited_member p) →
  setListeners (Some s) p c st = Raised TypeError (ensure_listeners s st).
Proof.
  intros [n Hp]. unfold setListeners, bind, modify, raise. by rewrite Hp.
Qed.


Lemma setListeners_Some s p c st :
  inherited_member p = None →
  ∃ st', setListeners (Some s) p c st = Ok tt st'
    ∧ (∀ s' p', listeners_of st' s' p' =
         if decide (s' = s ∧ p' = p) then set_add c (listeners_of st s p)
         else listeners_of st s' p')
    ∧ (∀ r' p', signals_of st' r' p' =
         if decide (r' = c ∧ p' = p) then set_add s (signals_of st c p)
         else signals_of st r' p')
    ∧ trace st' = trace st ∧ reactStack st' = reactStack st
    ∧ computeStack st' = computeStack st ∧ heap st' = heap st
    ∧ proxies st' = proxies st ∧ reactors st' = reactors st.
Proof.
  intros Hin. exists (register_edge s p c st).
  split; [by apply setListeners_register|]. split; [|split; [|done]].
  - intros s' p'.
    destruct (inherited_member p') as [n|] eqn:Hp'.
    { rewrite !(listeners_of_inherited _ s' p') by eauto.
      case_decide as Hd; [|done]. destruct Hd as [_ ->]. congruence. }
    rewrite (listeners_of_own _ s p), !(listeners_of_own _ s' p') by done.
    unfold register_edge. simpl.
    destruct (decide (s' = s)) as [->|Hs].
    + rewrite lookup_insert_eq. simpl.
      destruct (decide (p' = p)) as [->|Hp].
      * rewrite lookup_insert_eq. by rewrite decide_True by done.
      * rewrite lookup_insert_ne by done.
        by rewrite decide_False by (intros [??]; done).
    + rewrite lookup_insert_ne by done.
      rewrite decide_False by (intros [??]; done). done.
  - intros r' p'. unfold signals_of, register_edge. simpl.
    destruct (decide (r' = c)) as [->|Hr].
    + rewrite lookup_insert_eq. rewrite alookup_aset.
      destruct (decide (p' = p)) as [->|Hp].
      * rewrite decide_True by done. simpl.
        by destruct (computeMap st !! c).
      * rewrite decide_False by (intros [??]; done).
        by destruct (computeMap st !! c).
    + rewrite lookup_insert_ne by done.
      rewrite decide_False by (intros [??]; done). done.
Qed.

Lemma clear_edge_spec c p s st :
  (∀ s' p', listeners_of (clear_edge c p s st) s' p' =
     if decide (s' = s ∧ p' = p) then set_delete c (listeners_of st s p)
     else listeners_of st s' p')
  ∧ computeMap (clear_edge c p s st) = computeMap st
  ∧ trace (clear_edge c p s st) = trace st
  ∧ reactStack (clear_edge c p s st) = reactStack st
  ∧ computeStack (clear_edge c p s st) = computeStack st
  ∧ heap (clear_edge c p s st) = heap st
  ∧ proxies (clear_edge c p s st) = proxies st
  ∧ reactors (clear_edge c p s st) = reactors st.
Proof.
  split.
  - intros s' p'.
    destruct (inherited_member p') as [n|] eqn:Hp'.
    { rewrite !(listeners_of_inherited _ s' p') by eauto.
      case_decide as Hd; [|done]. destruct Hd as [_ ->].
      by rewrite (listeners_of_inherited st s p) by eauto. }
    case_decide as Hd.
    + destruct Hd as [-> ->]. rewrite !listeners_of_own by done.
      unfold clear_edge.
      destruct (listenersMap st !! s) as [L|] eqn:HL; [|by rewrite HL].
      simpl. destruct (L !! p) as [set|] eqn:Hset; simpl.
      * rewrite lookup_insert_eq. simpl. by rewrite lookup_insert_eq.
      * rewrite HL. simpl. by rewrite Hset.
    + rewrite !listeners_of_own by done. unfold clear_edge.
      destruct (listenersMap st !! s) as [L|] eqn:HL; [|done].
      destruct (L !! p) as [set|] eqn:Hset; [|done]. simpl.
      destruct (decide (s' = s)) as [->|Hs].
      * rewrite lookup_insert_eq, HL. simpl.
        rewrite lookup_insert_ne; [done|]. intros ->. by apply Hd.
      * by rewrite lookup_insert_ne.
  - unfold clear_edge. destruct (listenersMap st !! s) as [L|]; [|done].
    by destruct (L !! p).
Qed.

Lemma only_listeners_changed_refl st : only_listeners_changed st st.
Proof. by repeat split. Qed.

Lemma only_listeners_changed_trans a b c :
  only_listeners_changed a b → only_listeners_changed b c →
  only_listeners_changed a c.
Proof.
  unfold only_listeners_changed. intros (?&?&?&?&?&?&?) (?&?&?&?&?&?&?).
  repeat split; congruence.
Qed.

Lemma clear_edge_forward c p s st s' p' r :
  forward (clear_edge c p s st) s' p' r ↔
  forward st s' p' r ∧ ¬ (r = c ∧ p' = p ∧ s' = s).
Proof.
  unfold forward. destruct (clear_edge_spec c p s st) as [H _].
  rewrite H. case_decide as Hd.
  - destruct Hd as [-> ->]. rewrite elem_of_set_delete. tauto.
  - tauto.
Qed.

Lemma clear_property_forward c p sigs st s' p' r :
  forward (clear_property c p sigs st) s' p' r ↔
  forward st s' p' r ∧ ¬ (r = c ∧ p' = p ∧ s' ∈ sigs).
Proof.
  unfold clear_property. revert st.
  induction sigs as [|s sigs IH]; intros st; simpl.
  - rewrite elem_of_nil. tauto.
  - rewrite IH, clear_edge_forward, elem_of_cons. tauto.
Qed.

Lemma clear_property_frame c p sigs st :
  only_listeners_changed st (clear_property c p sigs st).
Proof.
  unfold clear_property. revert st.
  induction sigs as [|s sigs IH]; intros st; simpl.
  - apply only_listeners_changed_refl.
  - eapply only_listeners_changed_trans; [|apply IH].
    destruct (clear_edge_spec c p s st) as [_ H]. exact H.
Qed.

Lemma clear_entries_forward c entries st s p r :
  forward (clear_entries c entries st) s p r ↔
  forward st s p r ∧ ¬ (r = c ∧ ∃ sigs, (p, sigs) ∈ entries ∧ s ∈ sigs).
Proof.
  unfold clear_entries. revert st.
  induction entries as [|[p0 sigs0] entries IH]; intros st; simpl.
  - split; [intros H; split; [done|] | tauto].
    intros (_ & sigs & Hin & _). by apply elem_of_nil in Hin.
  - rewrite IH, clear_property_forward. split.
    + intros [[Hf Hn1] Hn2]. split; [done|].
      intros (-> & sigs & Hin & Hs). apply elem_of_cons in Hin.
      destruct Hin as [Heq|Hin].
      * inversion Heq; subst. tauto.
      * apply Hn2. eauto.
    + intros [Hf Hn]. repeat split; [done| |].
      * intros (-> & -> & Hs). apply Hn. split; [done|].
        exists sigs0. split; [apply elem_of_cons; by left | done].
      * intros (-> & sigs & Hin & Hs). apply Hn. split; [done|].
        exists sigs. split; [apply elem_of_cons; by right | done].
Qed.

Lemma clear_entries_frame c entries st :
  only_listeners_changed st (clear_entries c entries st).
Proof.
  unfold clear_entries. revert st.
  induction entries as [|[p0 sigs0] entries IH]; intros st; simpl.
  - apply only_listeners_changed_refl.
  - eapply only_listeners_changed_trans; [|apply IH].
    apply clear_property_frame.
Qed.

Lemma clearListeners_frame c st :
  only_listeners_changed st (clearListeners c st).
Proof.
  unfold clearListeners. destruct (computeMap st !! c).
  - apply (clear_entries_frame c (in_key_order l) st).
  - apply only_listeners_changed_refl.
Qed.

(** [clearListeners] only removes forward edges, and only edges of its
    argument. *)
Lemma clearListeners_subset c st s p r :
  forward (clearListeners c st) s p r → forward st s p r.
Proof.
  unfold clearListeners. destruct (computeMap st !! c) as [C|]; [|done].
  intros H. apply (clear_entries_forward c (in_key_order C) st) in H. tauto.
Qed.

Lemma clearListeners_other c st s p r :
  r ≠ c → forward st s p r → forward (clearListeners c st) s p r.
Proof.
  unfold clearListeners. intros Hne Hf.
  destruct (computeMap st !! c) as [C|]; [|done].
  apply (clear_entries_forward c (in_key_order C) st). split; [done|]. tauto.
Qed.

(** Every forward edge recorded in the back index is removed. *)
Lemma clearListeners_removes c st s p :
  back st c p s → ¬ forward (clearListeners c st) s p c.
Proof.
  unfold back, signals_of, clearListeners.
  destruct (computeMap st !! c) as [C|]; [|by intros ?%elem_of_nil].
  destruct (alookup p C) as [sigs|] eqn:Hl; simpl;
    [|by intros ?%elem_of_nil].
  intros Hs Hf. apply (clear_entries_forward c (in_key_order C) st) in Hf.
  destruct Hf as [_ Hn]. apply Hn. split; [done|].
  exists sigs. split; [|done].
  by apply in_key_order_elem, alookup_Some_elem.
Qed.

Lemma signals_of_clearListeners c st r p :
  signals_of (clearListeners c st) r p = signals_of st r p.
Proof.
  unfold signals_of.
  destruct (clearListeners_frame c st) as [H _]. by rewrite H.
Qed.

(** ** Every operation keeps a step-closed pair of relations *)

Lemma reactor_keeps Rok Rerr fns fuel r :
  step_closed Rok Rerr → keeps Rok Rerr (reactor fns fuel r).
Proof.
  intros H. revert r. induction fuel as [|n IH]; intros r; simpl.
  - intros st. exact I.
  - destruct H. by apply reactor_body_keeps.
Qed.

Lemma update_top_keeps Rok Rerr fns fuel fn :
  step_closed Rok Rerr → keeps Rok Rerr (update_top fns fuel fn).
Proof.
  intros H. unfold update_top.
  pose proof (λ r, reactor_keeps Rok Rerr fns fuel r H) as Hr.
  destruct H. apply update_keeps; auto.
Qed.

Lemma exec_keeps Rok Rerr fns fuel c :
  step_closed Rok Rerr → keeps Rok Rerr (exec fns fuel c).
Proof.
  intros H. unfold exec.
  pose proof (λ r, reactor_keeps Rok Rerr fns fuel r H) as Hr.
  destruct H. apply run_keeps; auto.
Qed.

Lemma merge_keeps Rok Rerr fns fuel to result :
  step_closed Rok Rerr →
  keeps Rok Rerr (object_assign (reactor fns fuel) to result).
Proof.
  intros H. pose proof (λ r, reactor_keeps Rok Rerr fns fuel r H) as Hr.
  destruct H. apply object_assign_keeps; auto.
Qed.

Lemma run_closed Rok Rerr fns fuel c v st st' :
  step_closed Rok Rerr →
  run (reactor fns fuel) c st = Ok v st' → Rok st st'.
Proof.
  intros HR H. pose proof (exec_keeps Rok Rerr fns fuel c HR st) as Hk.
  unfold exec in Hk. by rewrite H in Hk.
Qed.


(** One relation for both outcomes: it is enough that each write on its
    own respects it. *)
Lemma step_closed_uniform (R : State → State → Prop) :
  (∀ st, R st st) →
  (∀ a b c, R a b → R b c → R a c) →
  (∀ self p, keeps R R (notifyGet self p)) →
  (∀ r st, R st (log (ERun r) st)) →
  (∀ r st, R st (clearListeners r st)) →
  (∀ h st, R st (with_heap h st)) →
  (∀ v st, R st (with_proxies (proxies st ++ [v]) st)) →
  (∀ c st, R st (with_reactors (reactors st ++ [c]) st)) →
  (∀ r st, R st (with_computeStack (r :: computeStack st) st)) →
  (∀ st, R st (with_computeStack (tail (computeStack st)) st)) →
  (∀ f st, R st (with_reactStack (f :: reactStack st) st)) →
  (∀ f s st, R st (with_signals (<[f := s]> (signals st)) st)) →
  step_closed R R.
Proof.
  intros Hrefl Htrans Hget Hlog Hclear Hheap Hprox Hreact Hpush Hpop Hguard
    Hmemo.
  assert (∀ r st, R st (reactor_entry r st)) as Hentry.
  { intros r st. unfold reactor_entry.
    eapply Htrans; [apply (Hlog r)|]. eapply Htrans; [apply (Hclear r)|].
    apply Hpush. }
  split; try done.
  - intros r st st2 st3 H1 H2. eapply Htrans; [apply (Hentry r)|].
    eapply Htrans; [exact H1|]. eapply Htrans; [apply Hpop|]. exact H2.
  - intros r st st2 H1. eapply Htrans; [apply (Hentry r)|]. exact H1.
  - intros r st st2 st3 H1 H2. eapply Htrans; [apply (Hentry r)|].
    eapply Htrans; [exact H1|]. eapply Htrans; [apply Hpop|]. exact H2.
Qed.

(** ** [notifyGet], case by case *)

Lemma notifyGet_idle self p st :
  computeStack st = [] → notifyGet self p st = Ok tt st.
Proof. intros H. unfold notifyGet, bind, gets. by rewrite H. Qed.

Lemma notifyGet_undefined c stack p st :
  computeStack st = c :: stack →
  notifyGet None p st = Raised TypeError (log (ERead c None p) st).
Proof. intros H. unfold notifyGet, bind, gets. by rewrite H. Qed.

Lemma notifyGet_tracked c stack s p st :
  computeStack st = c :: stack →
  inherited_member p = None →
  ∃ st', notifyGet (Some s) p st = Ok tt st'
    ∧ (∀ s' p', listeners_of st' s' p' =
         if decide (s' = s ∧ p' = p) then set_add c (listeners_of st s p)
         else listeners_of st s' p')
    ∧ (∀ r' p', signals_of st' r' p' =
         if decide (r' = c ∧ p' = p) then set_add s (signals_of st c p)
         else signals_of st r' p')
    ∧ trace st' = ERead c (Some s) p :: trace st
    ∧ reactStack st' = reactStack st
    ∧ computeStack st' = computeStack st ∧ heap st' = heap st
    ∧ proxies st' = proxies st ∧ reactors st' = reactors st.
Proof.
  intros H Hp.
  destruct (setListeners_Some s p c (log (ERead c (Some s) p) st) Hp)
    as (st' & Heq & Hl & Hs & Ht & Hrest).
  exists st'. split.
  - unfold notifyGet, bind at 1, gets at 1. rewrite H.
    unfold bind at 1, modify at 1. exact Heq.
  - auto.
Qed.

Lemma ensure_listeners_frame s st :
  trace (ensure_listeners s st) = trace st
  ∧ computeMap (ensure_listeners s st) = computeMap st
  ∧ reactStack (ensure_listeners s st) = reactStack st
  ∧ computeStack (ensure_listeners s st) = computeStack st
  ∧ heap (ensure_listeners s st) = heap st
  ∧ proxies (ensure_listeners s st) = proxies st
  ∧ reactors (ensure_listeners s st) = reactors st.
Proof. unfold ensure_listeners. by destruct (listenersMap st !! s). Qed.

(** Inside a reactor, a read of a member name of [Object.prototype]. *)
Lemma notifyGet_inherited c stack s p st :
  computeStack st = c :: stack →
  is_Some (inherited_member p) →
  notifyGet (Some s) p st
  = Raised TypeError (ensure_listeners s (log (ERead c (Some s) p) st)).
Proof.
  intros H Hp. unfold notifyGet, bind at 1, gets at 1. rewrite H.
  unfold bind at 1, modify at 1. by apply setListeners_inherited.
Qed.

(** The three shapes of a [notifyGet] call. *)
Lemma notifyGet_cases self p st :
  notifyGet self p st = Ok tt st
  ∨ (∃ c st', notifyGet self p st = Raised TypeError st'
       ∧ read_refused c self p st st')
  ∨ (∃ c stack s, computeStack st = c :: stack ∧ self = Some s
       ∧ inherited_member p = None).
Proof.
  destruct (computeStack st) as [|c stack] eqn:H.
  - left. by apply notifyGet_idle.
  - destruct self as [s|].
    + destruct (inherited_member p) as [n|] eqn:Hp.
      * right; left. eexists c, _.
        split; [apply (notifyGet_inherited c stack); eauto|].
        destruct (ensure_listeners_frame s (log (ERead c (Some s) p) st))
          as (Ht & Hc & Hg & Hk & Hh & Hx & Hr).
        split; [right; eauto|]. split; [done|]. split; [|done].
        intros s' p'. by rewrite ensure_listeners_listeners.
      * right; right. by exists c, stack, s.
    + right; left. exists c, (log (ERead c None p) st).
      split; [by eapply notifyGet_undefined|]. split; [by left|].
      by repeat split.
Qed.

(** ** Three step-closed relations *)

Lemma guard_grows_closed : step_closed guard_grows guard_grows.
Proof.
  apply step_closed_uniform; unfold guard_grows; try (simpl; intros; auto; fail).
  - intros self p st.
    destruct (notifyGet_cases self p st)
      as [H|[(c & st' & H & Hf)|(c & stack & s & H & -> & Hp)]].
    + rewrite H. simpl. auto.
    + rewrite H. simpl. destruct Hf as (_ & _ & _ & _ & Hg & _).
      by rewrite Hg.
    + destruct (notifyGet_tracked c stack s p st H Hp)
        as (st' & Heq & _ & _ & _ & Hg & _).
      rewrite Heq. simpl. by rewrite Hg.
  - intros r st f. destruct (clearListeners_frame r st) as (_ & _ & Hg & _).
    by rewrite Hg.
  - simpl. intros f st g Hg. apply elem_of_cons. by right.
Qed.

Lemma edges_from_reads_refl st : edges_from_reads st st.
Proof. exists []. split; [done | auto]. Qed.

Lemma edges_from_reads_trans a b c :
  edges_from_reads a b → edges_from_reads b c → edges_from_reads a c.
Proof.
  intros (n1 & Ht1 & H1) (n2 & Ht2 & H2). exists (n2 ++ n1). split.
  - by rewrite Ht2, Ht1, app_assoc.
  - intros s p r Hf. rewrite elem_of_app.
    destruct (H2 s p r Hf) as [Hb|?]; [|tauto].
    destruct (H1 s p r Hb); tauto.
Qed.

(** A step that leaves the listeners and the trace alone. *)
Lemma edges_from_reads_same st st' :
  listenersMap st' = listenersMap st → trace st' = trace st →
  edges_from_reads st st'.
Proof.
  intros Hl Ht. exists []. split; [done|].
  intros s p r Hf. left. revert Hf.
  unfold forward. by rewrite (listeners_of_same st st' Hl).
Qed.

Lemma edges_from_reads_closed :
  step_closed edges_from_reads edges_from_reads.
Proof.
  apply step_closed_uniform; try (intros; by apply edges_from_reads_same).
  - apply edges_from_reads_trans.
  - intros self p st.
    destruct (notifyGet_cases self p st)
      as [H|[(c & st' & H & Hf)|(c & stack & s & H & -> & Hp)]].
    + rewrite H. apply edges_from_reads_refl.
    + rewrite H. simpl. destruct Hf as (_ & Ht & Hl & _).
      exists [ERead c self p]. split; [done|].
      intros s' p' r. unfold forward. rewrite Hl. auto.
    + destruct (notifyGet_tracked c stack s p st H Hp)
        as (st' & Heq & Hl & _ & Ht & _).
      rewrite Heq. simpl. exists [ERead c (Some s) p]. split; [done|].
      intros s' p' r. unfold forward. rewrite Hl. case_decide as Hd; [|auto].
      destruct Hd as [-> ->]. rewrite elem_of_set_add.
      intros [->|?]; [right | by left]. by apply list_elem_of_singleton.
  - intros r st. exists [ERun r]. split; [done | auto].
  - intros r st. exists []. split.
    + by destruct (clearListeners_frame r st) as (_ & -> & _).
    + intros s p r' Hf. left. by eapply clearListeners_subset.
Qed.

Lemma forward_in_back_frame st st' :
  (∀ s p, listeners_of st' s p = listeners_of st s p) →
  computeMap st' = computeMap st →
  keeps_forward_in_back st st'.
Proof.
  intros Hl Hc Hinv s p r. unfold forward, back, signals_of.
  rewrite Hl, Hc. apply Hinv.
Qed.

Lemma forward_in_back_same st st' :
  listenersMap st' = listenersMap st → computeMap st' = computeMap st →
  keeps_forward_in_back st st'.
Proof.
  intros Hl Hc. apply forward_in_back_frame; [|done].
  by apply listeners_of_same.
Qed.

(** Registering an edge adds it to both indexes. *)
Lemma register_forward_in_back st st' s p c :
  (∀ s' p', listeners_of st' s' p' =
     if decide (s' = s ∧ p' = p) then set_add c (listeners_of st s p)
     else listeners_of st s' p') →
  (∀ r' p', signals_of st' r' p' =
     if decide (r' = c ∧ p' = p) then set_add s (signals_of st c p)
     else signals_of st r' p') →
  forward_in_back st → forward_in_back st'.
Proof.
  intros Hl Hs Hinv s' p' r. unfold forward, back. rewrite Hl, Hs.
  destruct (decide (s' = s ∧ p' = p)) as [[-> ->]|Hn].
  - rewrite elem_of_set_add. intros [->|Hf].
    + rewrite decide_True by done. apply elem_of_set_add. by left.
    + apply Hinv in Hf. case_decide as Hd; [|done].
      destruct Hd as [-> _]. apply elem_of_set_add. by right.
  - intros Hf. apply Hinv in Hf. case_decide as Hd; [|done].
    destruct Hd as [-> ->]. apply elem_of_set_add. by right.
Qed.

Lemma clear_forward_in_back c st :
  forward_in_back st → forward_in_back (clearListeners c st).
Proof.
  intros Hinv s p r Hf. apply clearListeners_subset in Hf.
  unfold back. rewrite signals_of_clearListeners. by apply Hinv.
Qed.

Lemma forward_in_back_closed :
  step_closed keeps_forward_in_back keeps_forward_in_back.
Proof.
  apply step_closed_uniform; try (intros; by apply forward_in_back_same).
  - unfold keeps_forward_in_back. auto.
  - intros self p st.
    destruct (notifyGet_cases self p st)
      as [H|[(c & st' & H & Hf)|(c & stack & s & H & -> & Hp)]].
    + rewrite H. by intros ?.
    + rewrite H. simpl. destruct Hf as (_ & _ & Hl & Hc & _).
      by apply forward_in_back_frame.
    + destruct (notifyGet_tracked c stack s p st H Hp)
        as (st' & Heq & Hl & Hs & _).
      rewrite Heq. simpl. intros Hinv.
      by apply (register_forward_in_back st st' s p c).
  - intros r st Hinv. by apply clear_forward_in_back.
Qed.

(** ** Reads and the listener sets they fill *)

Lemma reads_registered_same st st' :
  listenersMap st' = listenersMap st → trace st' = trace st →
  keeps_reads_registered st st'.
Proof.
  intros Hl Ht Hinv r s p Hp. rewrite Ht. intros Hin.
  unfold forward. rewrite (listeners_of_same st st' Hl). by apply Hinv.
Qed.

(** At the call of [fn] the reads counted for the reactor start afresh,
    and the other reactors keep their edges. *)
Lemma reads_registered_entry r st :
  reads_registered st → reads_registered (reactor_entry r st).
Proof.
  intros Hinv r' s p Hp.
  assert (trace (reactor_entry r st) = ERun r :: trace st) as ->.
  { unfold reactor_entry. simpl.
    by destruct (clearListeners_frame r (log (ERun r) st)) as (_ & -> & _). }
  simpl. case_decide as Hd; [by intros ?%elem_of_nil|].
  intros Hin. apply elem_of_cons in Hin as [?|Hin]; [done|].
  change (forward (clearListeners r (log (ERun r) st)) s p r').
  apply clearListeners_other; [congruence|]. by apply Hinv.
Qed.

Lemma reads_registered_closed :
  step_closed keeps_reads_registered keeps_reads_registered.
Proof.
  split; try (intros; by apply reads_registered_same).
  - unfold keeps_reads_registered. auto.
  - unfold keeps_reads_registered. auto.
  - intros self p st.
    destruct (notifyGet_cases self p st)
      as [H|[(c & st' & H & Hf)|(c & stack & s & H & -> & Hp)]].
    + rewrite H. by intros ?.
    + rewrite H. simpl. destruct Hf as (Hwhy & Ht & Hl & _).
      intros Hinv r s' p' Hp'. rewrite Ht. simpl. intros Hin.
      apply elem_of_cons in Hin as [Heq|Hin].
      * inversion Heq; subst. destruct Hwhy as [?|[n Hn]]; congruence.
      * unfold forward. rewrite Hl. by apply Hinv.
    + destruct (notifyGet_tracked c stack s p st H Hp)
        as (st' & Heq & Hl & _ & Ht & _).
      rewrite Heq. simpl. intros Hinv r s' p' Hp'. rewrite Ht. simpl.
      intros Hin. unfold forward. rewrite Hl.
      apply elem_of_cons in Hin as [Heq'|Hin].
      * inversion Heq'; subst. rewrite decide_True by done.
        apply elem_of_set_add. by left.
      * apply Hinv in Hin; [|done]. case_decide as Hd; [|done].
        destruct Hd as [-> ->]. apply elem_of_set_add. by right.
  - intros r st st2 st3 H1 H2 Hinv. apply H2.
    apply (reads_registered_same st2); [done..|].
    by apply H1, reads_registered_entry.
  - intros r st st2 H1 Hinv. by apply H1, reads_registered_entry.
  - intros r st st2 st3 H1 H2 Hinv. apply H2.
    apply (reads_registered_same st2); [done..|].
    by apply H1, reads_registered_entry.
Qed.

Lemma reads_registered_initial : reads_registered initial.
Proof. intros r s p _ Hin. by apply elem_of_nil in Hin. Qed.

(** Every state a script reaches from a fresh module has its attributed
    reads registered. *)
Lemma exec_reads_registered fns fuel c v st :
  exec fns fuel c initial = Ok v st → reads_registered st.
Proof.
  intros H.
  pose proof (exec_keeps _ _ fns fuel c reads_registered_closed initial) as Hk.
  rewrite H in Hk. apply Hk, reads_registered_initial.
Qed.

Lemma update_entry_guard fn st cs r st2 :
  update_entry fn st = (cs, r, st2) → reactStack st2 = fn :: reactStack st.
Proof.
  unfold update_entry, memo_signal. simpl.
  destruct (signals st !! fn); intros H; by inversion H.
Qed.

(** ** The end-to-end scenario of the specification *)

(** [doubled.d] is 0 at once and 10 after [counter.n = 5], with no second
    call of [update]; one level of reactor calls is enough. *)
Lemma doubled_follows_counter :
  ∃ st, exec fns_doubled 1 doubled_script initial = Ok (VNum 10) st
    ∧ computeStack st = [] ∧ runs_since initial st 0 = 2.
Proof. eexists. split; [vm_compute; reflexivity|]. split; vm_compute; done. Qed.

(** ** The run guard (C1, C2) *)

(** [update] refuses a function that is on the run-guard stack. *)
Lemma update_guard call_reactor fn st :
  fn ∈ reactStack st →
  update call_reactor fn st = Raised (RecursiveInvocation fn) st.
Proof. intros H. rewrite update_unfold. by rewrite decide_True. Qed.

(** A call of [update] that ends, normally or not, leaves [fn] on the
    run-guard stack unless the guard itself refused it. *)
Lemma update_leaves_guard fns fuel fn st :
  outcome_rel (λ _ st', fn ∈ reactStack st') (λ _ st', fn ∈ reactStack st')
    st (update_top fns fuel fn st).
Proof.
  unfold update_top. rewrite update_unfold. case_decide as Hin; [done|].
  destruct (update_entry fn st) as [[cs r] st2] eqn:He.
  apply update_entry_guard in He.
  pose proof (reactor_keeps _ _ fns fuel r guard_grows_closed st2) as Hk.
  assert (fn ∈ reactStack st2) as H2 by (rewrite He; apply elem_of_cons; by left).
  destruct (reactor fns fuel r st2); simpl in *; auto.
Qed.

(** C1 (code bug).  [update] pushes [fn] on [reactStack] at line 123 and no
    line pops it.  So after a call [update(fn)] that has returned, [fn] is
    still on the run-guard stack, and a second [update(fn)] throws the
    recursion error where the claim has it return the memoized output
    signal. *)
Theorem update_second_call_raises fns fuel fuel' fn v st st' :
  update_top fns fuel fn st = Ok v st' →
  fn ∈ reactStack st'
  ∧ update_top fns fuel' fn st' = Raised (RecursiveInvocation fn) st'.
Proof.
  intros H. pose proof (update_leaves_guard fns fuel fn st) as Hg.
  rewrite H in Hg. simpl in Hg. split; [done|].
  unfold update_top. by apply update_guard.
Qed.

Lemma update_second_call_raises_witness :
  update_top fns_empty 1 0 initial = Ok (VSig 0) after_first_update
  ∧ 0 ∈ reactStack after_first_update
  ∧ update_top fns_empty 1 0 after_first_update
    = Raised (RecursiveInvocation 0) after_first_update.
Proof.
  assert (update_top fns_empty 1 0 initial = Ok (VSig 0) after_first_update)
    as H by (vm_compute; reflexivity).
  split; [exact H|].
  exact (update_second_call_raises fns_empty 1 1 0 (VSig 0) initial
           after_first_update H).
Defined.

(** The state in which a reactor calls [fn] has the guard stack it was
    entered with. *)
Lemma reactor_entry_guard r st :
  reactStack (reactor_entry r st) = reactStack st.
Proof.
  unfold reactor_entry. simpl.
  by destruct (clearListeners_frame r (log (ERun r) st)) as (_ & _ & -> & _).
Qed.

Lemma reactor_entry_computeStack r st :
  computeStack (reactor_entry r st) = r :: computeStack st.
Proof.
  unfold reactor_entry. simpl.
  by destruct (clearListeners_frame r (log (ERun r) st))
    as (_ & _ & _ & -> & _).
Qed.

Lemma update_entry_closure fn st cs r st2 :
  update_entry fn st = (cs, r, st2) →
  reactors st2 !! r = Some (fn, cs) ∧ computeStack st2 = computeStack st.
Proof.
  unfold update_entry, memo_signal. simpl.
  destruct (signals st !! fn); intros H; inversion H; subst; simpl;
    by rewrite list_lookup_middle.
Qed.

Lemma run_pbind call_reactor c k st :
  run call_reactor (pbind c k) st
  = bind (run call_reactor c) (λ v, run call_reactor (k v)) st.
Proof.
  revert st. induction c as [v| |o c' IH|r p c' IH|r p v c' IH|r c' IH
                             |s p c' IH|s p v c' IH|s p c' IH
                             |strict s p c' IH|f c' IH]; intros st; simpl;
    try reflexivity.
  - unfold bind. destruct (new_object o st); simpl; auto.
  - unfold bind, gets. destruct (heap st !! r); simpl; auto.
  - unfold bind, gets. destruct (heap st !! r); simpl; auto.
  - unfold bind. destruct (signal r st); simpl; auto.
  - unfold bind. destruct (proxy_get s p st); simpl; auto.
  - unfold bind. destruct (proxy_set call_reactor s p v st) as [[] ?| |];
      simpl; auto.
  - unfold bind. destruct (proxy_has s p st); simpl; auto.
  - unfold bind. destruct (proxy_delete call_reactor s p st) as [b ?| |];
      simpl; [|done..]. destruct (strict && negb b); simpl; auto.
  - unfold bind. destruct (update call_reactor f st); simpl; auto.
Qed.

(** C2 (as amended).  Take a reactor whose computation, after a prefix that
    returns, calls [update] on its own function.  That call meets the guard
    of [update], which finds [fn] on the run-guard stack, and [update(fn)]
    ends in the recursion error carrying [fn]. *)
Theorem self_update_raises fns fuel fn prefix k st cs r st2 v st1 :
  fns fn = pbind prefix (λ _, PUpdate fn k) →
  update_entry fn st = (cs, r, st2) →
  run (reactor fns fuel) prefix (reactor_entry r st2) = Ok v st1 →
  ∃ st', update_top fns (S fuel) fn st = Raised (RecursiveInvocation fn) st'.
Proof.
  intros Hfn He Hpre. unfold update_top. rewrite update_unfold.
  case_decide as Hin; [eauto|]. rewrite He.
  destruct (update_entry_closure _ _ _ _ _ He) as [Hr _].
  apply update_entry_guard in He.
  simpl. rewrite reactor_body_unfold, Hr, Hfn, run_pbind.
  unfold bind at 1. rewrite Hpre. simpl. unfold bind at 1.
  rewrite update_guard; [eauto|].
  apply (run_closed _ _ _ _ _ _ _ _ guard_grows_closed) in Hpre.
  apply Hpre. rewrite reactor_entry_guard, He. apply elem_of_cons. by left.
Qed.

Lemma self_update_raises_witness :
  ∃ st', update_top fns_reenter 1 0 initial
         = Raised (RecursiveInvocation 0) st'.
Proof.
  apply (self_update_raises fns_reenter 0 0 reenter_prefix PRet initial
           0 0 fresh_entry (VSig 1) reenter_prefix_done).
  - reflexivity.
  - vm_compute. reflexivity.
  - vm_compute. reflexivity.
Defined.

(** ** The dependency tracker stack (C5) *)

Lemma stack_closed : step_closed stack_kept stack_extended.
Proof.
  split; unfold stack_kept, stack_extended; try done.
  - intros a b c Hab Hbc. by rewrite Hbc.
  - intros st. by exists [].
  - intros a b c Hab [left_over Hbc]. exists left_over. by rewrite Hbc, Hab.
  - intros self p st.
    destruct (notifyGet_cases self p st)
      as [H|[(c & st' & H & Hf)|(c & stack & s & H & -> & Hp)]].
    + by rewrite H.
    + rewrite H. simpl. destruct Hf as (_ & _ & _ & _ & _ & Hc & _).
      exists []. by rewrite Hc.
    + destruct (notifyGet_tracked c stack s p st H Hp)
        as (st' & Heq & _ & _ & _ & _ & Hc & _).
      by rewrite Heq.
  - intros r st st2 st3 H2 H3. rewrite H3. simpl.
    by rewrite H2, reactor_entry_computeStack.
  - intros r st st2 [left_over H2]. exists (left_over ++ [r]).
    by rewrite H2, reactor_entry_computeStack, <- app_assoc.
  - intros r st st2 st3 H2 [left_over H3]. exists left_over.
    rewrite H3. simpl. by rewrite H2, reactor_entry_computeStack.
Qed.

(** On the path where nothing throws the push and the pop do pair up: a
    call of [update] that returns leaves [computeStack] as it found it. *)
Lemma update_returns_balanced fns fuel fn v st st' :
  update_top fns fuel fn st = Ok v st' → computeStack st' = computeStack st.
Proof.
  intros H. pose proof (update_top_keeps _ _ fns fuel fn stack_closed st) as Hk.
  by rewrite H in Hk.
Qed.

(** A call that throws never removes a frame it found. *)
Lemma update_throws_extended fns fuel fn e st st' :
  update_top fns fuel fn st = Raised e st' →
  ∃ left_over, computeStack st' = left_over ++ computeStack st.
Proof.
  intros H. pose proof (update_top_keeps _ _ fns fuel fn stack_closed st) as Hk.
  by rewrite H in Hk.
Qed.

(** C5 (code bug).  Lines 132-134 push, call [fn] and pop with nothing to
    run the pop when [fn] throws.  Whenever the computation of a reactor
    throws, at whatever point, [update] ends in that error with the frame of
    the reactor still on [computeStack], under whatever the frames above it
    left: the stack that was empty before the call is not empty after. *)
Theorem throwing_update_leaves_frame fns fuel fn st cs r st2 e st1 :
  fn ∉ reactStack st →
  update_entry fn st = (cs, r, st2) →
  run (reactor fns fuel) (fns fn) (reactor_entry r st2) = Raised e st1 →
  update_top fns (S fuel) fn st = Raised e st1
  ∧ ∃ left_over, computeStack st1 = left_over ++ r :: computeStack st.
Proof.
  intros Hin He Hrun. unfold update_top. rewrite update_unfold.
  rewrite decide_False by done. rewrite He.
  destruct (update_entry_closure _ _ _ _ _ He) as [Hr Hc].
  simpl. rewrite reactor_body_unfold, Hr, Hrun. split; [done|].
  pose proof (exec_keeps _ _ fns fuel (fns fn) stack_closed
                (reactor_entry r st2)) as Hk.
  unfold exec in Hk. rewrite Hrun in Hk. destruct Hk as [left_over Hk].
  exists left_over. by rewrite Hk, reactor_entry_computeStack, Hc.
Qed.

Lemma throwing_update_leaves_frame_witness :
  computeStack initial = []
  ∧ update_top fns_throw 1 0 initial
    = Raised UserError (reactor_entry 0 fresh_entry)
  ∧ ∃ left_over,
      computeStack (reactor_entry 0 fresh_entry) = left_over ++ [0].
Proof.
  split; [reflexivity|].
  apply (throwing_update_leaves_frame fns_throw 0 0 initial 0 0 fresh_entry
           UserError (reactor_entry 0 fresh_entry)).
  - apply not_elem_of_nil.
  - vm_compute. reflexivity.
  - reflexivity.
Defined.

(** ** The traps unfolded *)

Lemma notifySet_unfold call_reactor self p st :
  notifySet call_reactor self p st =
  match getListeners self p st with
  | Some (Reactors snapshot) => call_all call_reactor snapshot st
  | Some (Inherited 0) => Ok tt st
  | Some (Inherited (S _)) => Raised TypeError st
  | None => Ok tt st
  end.
Proof.
  unfold notifySet, bind, gets.
  by destruct (getListeners self p st) as [[snapshot|[|n]]|].
Qed.

Lemma proxy_get_unfold s p st :
  proxy_get s p st =
  match proxies st !! s with
  | Some target =>
      match notifyGet (Some s) p st with
      | Ok _ st' => Ok (obj_get (heap_obj st' target) p) st'
      | Raised e st' => Raised e st'
      | OutOfFuel => OutOfFuel
      end
  | None => Raised TypeError st
  end.
Proof.
  unfold proxy_get, target_of, signalHandler_get, bind, gets, ret, raise.
  by destruct (proxies st !! s).
Qed.

Lemma proxy_set_unfold call_reactor s p v st :
  proxy_set call_reactor s p v st =
  match proxies st !! s with
  | Some target =>
      if strict_eq (obj_get (heap_obj st target) p) v then Ok true st
      else
        match notifySet call_reactor (Some s) p (heap_set target p v st) with
        | Ok _ st' => Ok true st'
        | Raised e st' => Raised e st'
        | OutOfFuel => OutOfFuel
        end
  | None => Raised TypeError st
  end.
Proof.
  unfold proxy_set, target_of, signalHandler_set, bind, gets, modify, ret,
    raise.
  destruct (proxies st !! s) as [target|]; [|done]. simpl.
  destruct (strict_eq (obj_get (heap_obj st target) p) v); simpl; [done|].
  by destruct (notifySet call_reactor (Some s) p (heap_set target p v st)).
Qed.

Lemma heap_obj_heap_set r p v st r' :
  r < length (heap st) →
  heap_obj (heap_set r p v st) r' =
  if decide (r' = r) then obj_set (heap_obj st r) p v else heap_obj st r'.
Proof.
  intros Hlt. unfold heap_obj, heap_set. simpl. case_decide as Hd.
  - subst. by rewrite list_lookup_insert_eq.
  - by rewrite list_lookup_insert_ne.
Qed.

Lemma listeners_of_Some_cons st s p r :
  r ∈ listeners_of st s p →
  ∃ r0 rest, getListeners (Some s) p st = Some (Reactors (r0 :: rest))
    ∧ r0 ∈ listeners_of st s p.
Proof.
  unfold listeners_of.
  destruct (getListeners (Some s) p st) as [[[|r0 rest]|n]|];
    simpl; intros H; try by apply elem_of_nil in H.
  exists r0, rest. split; [done|]. apply elem_of_cons. by left.
Qed.

Lemma reactor_entry_frame r st :
  heap (reactor_entry r st) = heap st
  ∧ proxies (reactor_entry r st) = proxies st
  ∧ reactors (reactor_entry r st) = reactors st
  ∧ computeMap (reactor_entry r st) = computeMap st
  ∧ trace (reactor_entry r st) = ERun r :: trace st.
Proof.
  unfold reactor_entry. simpl.
  destruct (clearListeners_frame r (log (ERun r) st))
    as (-> & -> & _ & _ & -> & -> & ->).
  done.
Qed.

(** ** The self-writing reactor (C2) *)

Lemma selfwrite_diverges fuel st :
  selfwrite_inv st → reactor fns_selfwrite fuel 0 st = OutOfFuel.
Proof.
  revert st. induction fuel as [|n IH]; intros st; [done|].
  intros (Hp & [z Hx] & Hlen & [[fn cs] Hr] & Hl).
  simpl. rewrite reactor_body_unfold, Hr.
  pose proof (reactor_entry_frame 0 st) as (Hheap & Hprox & Hreact & _).
  assert (computeStack (reactor_entry 0 st) = 0 :: computeStack st) as Hcs
    by apply reactor_entry_computeStack.
  destruct (notifyGet_tracked 0 _ 0 "x" _ Hcs eq_refl)
    as (st1 & Hget & Hl1 & _ & _ & _ & _ & Hheap1 & Hprox1 & Hreact1).
  rewrite Hheap in Hheap1. rewrite Hprox in Hprox1.
  rewrite Hreact in Hreact1.
  assert (heap_obj st1 0 = heap_obj st 0) as Ho1
    by (unfold heap_obj; by rewrite Hheap1).
  (* the state in which the write notifies *)
  set (st2 := heap_set 0 "x" (VNum (z + 1)) st1).
  assert (0 ∈ listeners_of st2 0 "x") as H0.
  { change (0 ∈ listeners_of st1 0 "x"). rewrite Hl1, decide_True by done.
    apply elem_of_set_add. by left. }
  assert (selfwrite_inv st2) as Hinv.
  { split; [subst st2; simpl; by rewrite Hprox1|]. split.
    { exists (z + 1)%Z. subst st2.
      rewrite heap_obj_heap_set by (rewrite Hheap1; lia).
      rewrite decide_True by done. simpl. rewrite alookup_aset.
      by rewrite decide_True. }
    split; [subst st2; simpl; rewrite length_insert, Hheap1; lia|].
    split; [subst st2; simpl; rewrite Hreact1; eauto|].
    intros r. change (r ∈ listeners_of st1 0 "x" → r = 0).
    rewrite Hl1, decide_True by done. rewrite elem_of_set_add.
    intros [?|Hin]; [done|]. apply Hl.
    change (forward (clearListeners 0 (log (ERun 0) st)) 0 "x" r) in Hin.
    by apply clearListeners_subset in Hin. }
  destruct (listeners_of_Some_cons _ _ _ _ H0) as (r0 & rest & Hsnap & Hr0).
  assert (r0 = 0) as -> by (destruct Hinv as (_ & _ & _ & _ & Hall); auto).
  (* the computation, step by step *)
  remember (reactor fns_selfwrite n) as nested eqn:Hnested.
  unfold fns_selfwrite. cbn [run]. unfold bind at 1.
  rewrite proxy_get_unfold, Hprox, Hp, Hget, Ho1.
  unfold obj_get at 1. rewrite Hx.
  cbn [run]. unfold bind at 1. rewrite proxy_set_unfold, Hprox1, Hp, Ho1.
  unfold obj_get at 1. rewrite Hx. simpl strict_eq.
  replace (z =? z + 1)%Z with false by (symmetry; apply Z.eqb_neq; lia).
  fold st2. rewrite notifySet_unfold, Hsnap. cbn [call_all].
  unfold bind at 1. subst nested. by rewrite IH.
Qed.

Lemma selfwrite_update_diverges fuel :
  update_top fns_selfwrite fuel 0 selfwrite_start = OutOfFuel.
Proof.
  unfold update_top. rewrite update_unfold.
  rewrite decide_False by (vm_compute; apply not_elem_of_nil).
  destruct (update_entry 0 selfwrite_start) as [[cs r] st2] eqn:He.
  vm_compute in He. inversion He; subst; clear He.
  rewrite selfwrite_diverges; [done|].
  split; [done|]. split; [by exists 0%Z|]. split; [simpl; lia|].
  split; [by eexists|]. intros r Hr. vm_compute in Hr.
  by apply elem_of_nil in Hr.
Qed.

(** C2 (counterexample).  A reactor that writes a property it has just read
    is called again by [notifySet], which does not look at the run-guard
    stack: the recursion error is never raised, at any depth. *)
Lemma selfwrite_never_raises :
  ¬ ∃ fuel st',
      update_top fns_selfwrite fuel 0 selfwrite_start
      = Raised (RecursiveInvocation 0) st'.
Proof. intros (fuel & st' & H). by rewrite selfwrite_update_diverges in H. Qed.

(** ** The listener graph (C3) *)

Lemma forward_initial s p r : ¬ forward initial s p r.
Proof. unfold forward. vm_compute. apply not_elem_of_nil. Qed.

Lemma forward_in_back_initial : forward_in_back initial.
Proof. intros s p r H. by apply forward_initial in H. Qed.

(** Registering an edge keeps the two indexes mutual inverses. *)
Lemma register_mutual_inverse st st' s p c :
  (∀ s' p', listeners_of st' s' p' =
     if decide (s' = s ∧ p' = p) then set_add c (listeners_of st s p)
     else listeners_of st s' p') →
  (∀ r' p', signals_of st' r' p' =
     if decide (r' = c ∧ p' = p) then set_add s (signals_of st c p)
     else signals_of st r' p') →
  mutual_inverse st → mutual_inverse st'.
Proof.
  intros Hl Hs Hinv s' p' r. unfold forward, back. rewrite Hl, Hs.
  specialize (Hinv s' p' r) as Hsame. unfold forward, back in Hsame.
  destruct (decide (s' = s ∧ p' = p)) as [[Hs1 Hp1]|Hn1];
    destruct (decide (r = c ∧ p' = p)) as [[Hr2 Hp2]|Hn2];
    subst; rewrite ?elem_of_set_add.
  - tauto.
  - split; [intros [->|?]; [tauto | by apply Hsame] |].
    intros Hb. right. by apply Hsame.
  - split; [intros Hf; right; by apply Hsame |].
    intros [->|Hb]; [tauto | by apply Hsame].
  - done.
Qed.

(** Every state a script reaches from a fresh module has the inclusion. *)
Lemma exec_forward_in_back fns fuel c v st :
  exec fns fuel c initial = Ok v st → forward_in_back st.
Proof.
  intros H.
  pose proof (exec_keeps _ _ fns fuel c forward_in_back_closed initial) as Hk.
  rewrite H in Hk. apply Hk, forward_in_back_initial.
Qed.

Lemma diamond_start_forward_in_back : forward_in_back diamond_start.
Proof.
  destruct (exec fns_diamond 1 diamond_script initial)
    as [v st| |] eqn:Hexec; [|by vm_compute in Hexec..].
  assert (diamond_start = st) as ->
    by (unfold diamond_start; by rewrite Hexec).
  by apply exec_forward_in_back in Hexec.
Qed.

(** C3 (as amended).  From a graph in which every forward edge has its back
    edge.  Registering an edge under a name that is not a member name of
    [Object.prototype] adds it to both indexes, keeps that inclusion, and
    keeps the indexes mutual inverses if they were.  Under a member name of
    [Object.prototype] the registration throws a [TypeError] and both
    indexes hold the edges they held.  Clearing the edges of a reactor
    keeps the inclusion, removes the reactor from every forward set and
    leaves [computeMap], the back index, as it was. *)
Theorem listener_graph_forward_in_back st :
  forward_in_back st →
  (∀ s p c, inherited_member p = None →
     ∃ st', setListeners (Some s) p c st = Ok tt st'
       ∧ forward_in_back st' ∧ forward st' s p c ∧ back st' c p s
       ∧ (mutual_inverse st → mutual_inverse st'))
  ∧ (∀ s p c, is_Some (inherited_member p) →
     ∃ st', setListeners (Some s) p c st = Raised TypeError st'
       ∧ forward_in_back st'
       ∧ (∀ s' p' r, forward st' s' p' r ↔ forward st s' p' r)
       ∧ computeMap st' = computeMap st)
  ∧ (∀ c,
      forward_in_back (clearListeners c st)
      ∧ (∀ s p, ¬ forward (clearListeners c st) s p c)
      ∧ computeMap (clearListeners c st) = computeMap st).
Proof.
  intros Hinv. split; [|split].
  - intros s p c Hp.
    destruct (setListeners_Some s p c st Hp) as (st' & Heq & Hl & Hs & _).
    exists st'. split; [done|]. split; [|split; [|split]].
    + by apply (register_forward_in_back st st' s p c).
    + unfold forward. rewrite Hl, decide_True by done.
      apply elem_of_set_add. by left.
    + unfold back. rewrite Hs, decide_True by done.
      apply elem_of_set_add. by left.
    + by apply (register_mutual_inverse st st' s p c).
  - intros s p c Hp. exists (ensure_listeners s st).
    split; [by apply setListeners_inherited|].
    destruct (ensure_listeners_frame s st) as (_ & Hc & _).
    split; [|split; [|done]].
    + apply (forward_in_back_frame st); [|done|done].
      intros s' p'. apply ensure_listeners_listeners.
    + intros s' p' r. unfold forward.
      by rewrite ensure_listeners_listeners.
  - intros c. split; [|split].
    + by apply clear_forward_in_back.
    + intros s p Hf. pose proof (clearListeners_subset _ _ _ _ _ Hf) as Hf0.
      by apply (clearListeners_removes c st s p); [apply Hinv|].
    + by destruct (clearListeners_frame c st) as [-> _].
Qed.

Lemma listener_graph_forward_in_back_witness :
  forward_in_back diamond_start
  ∧ in_forward diamond_start 0 "p" 0 = true
  ∧ (∃ st', setListeners (Some 0) "q" 0 diamond_start = Ok tt st'
       ∧ forward_in_back st' ∧ forward st' 0 "q" 0 ∧ back st' 0 "q" 0)
  ∧ (∃ st', setListeners (Some 0) "constructor" 0 diamond_start
            = Raised TypeError st'
       ∧ forward_in_back st')
  ∧ forward_in_back (clearListeners 0 diamond_start)
  ∧ ¬ forward (clearListeners 0 diamond_start) 0 "p" 0.
Proof.
  pose proof (listener_graph_forward_in_back diamond_start
                diamond_start_forward_in_back) as (Hset & Hfail & Hclear).
  split; [exact diamond_start_forward_in_back|].
  split; [vm_compute; reflexivity|]. split; [|split; [|split]].
  - destruct (Hset 0 "q" 0 eq_refl) as (st' & Heq & Hfb & Hf & Hb & _).
    by exists st'.
  - destruct (Hfail 0 "constructor" 0 (mk_is_Some _ _ eq_refl))
      as (st' & Heq & Hfb & _).
    by exists st'.
  - exact (proj1 (Hclear 0)).
  - exact (proj1 (proj2 (Hclear 0)) 0 "p").
Defined.

(** C3 (counterexample).  [clearListeners] deletes the reactor from the
    forward sets and never writes [computeMap]: after it the back index
    still holds the edge that the forward index has lost. *)
Lemma clear_breaks_mutual_inverse :
  mutual_inverse edge_registered
  ∧ in_back edge_cleared 0 "p" 0 = true
  ∧ in_forward edge_cleared 0 "p" 0 = false
  ∧ ¬ mutual_inverse edge_cleared.
Proof.
  assert (in_back edge_cleared 0 "p" 0 = true) as Hb by (vm_compute; done).
  assert (in_forward edge_cleared 0 "p" 0 = false) as Hf by (vm_compute; done).
  split; [|split; [done|split; [done|]]].
  - destruct (setListeners_Some 0 "p" 0 initial eq_refl)
      as (st' & Heq & Hl & Hs & _).
    assert (st' = edge_registered) as ->
        by (unfold edge_registered; by rewrite Heq).
    apply (register_mutual_inverse initial _ 0 "p" 0 Hl Hs).
    intros s p r. split; [by intros ?%forward_initial|].
    unfold back. vm_compute. by intros ?%elem_of_nil.
  - intros Hm. apply bool_decide_eq_true in Hb.
    apply bool_decide_eq_false in Hf. apply Hf. by apply Hm.
Qed.

(** ** Writes and their notifications (C4) *)

(** A reactor call that returns has logged its own entry. *)
Lemma reactor_logs_run fns fuel r st st' :
  reactor fns fuel r st = Ok tt st' →
  ∃ new, trace st' = new ++ trace st ∧ ERun r ∈ new.
Proof.
  destruct fuel as [|n]; [done|]. simpl. rewrite reactor_body_unfold.
  destruct (reactors st !! r) as [[fn cs]|]; [|done].
  pose proof (exec_keeps _ _ fns n (fns fn) edges_from_reads_closed
                (reactor_entry r st)) as Hrun.
  unfold exec in Hrun.
  destruct (run (reactor fns n) (fns fn) (reactor_entry r st))
    as [result st2| |]; [|done|done].
  simpl in Hrun. destruct Hrun as (n1 & Ht1 & _).
  pose proof (merge_keeps _ _ fns n cs result edges_from_reads_closed
                (pop_computeStack st2)) as Hassign.
  intros H. rewrite H in Hassign. simpl in Hassign.
  destruct Hassign as (n2 & Ht2 & _).
  destruct (reactor_entry_frame r st) as (_ & _ & _ & _ & Ht0).
  exists (n2 ++ n1 ++ [ERun r]). split.
  - rewrite Ht2. simpl. rewrite Ht1, Ht0. by rewrite <- !app_assoc.
  - rewrite !elem_of_app, list_elem_of_singleton. tauto.
Qed.

(** The loop of [notifySet] calls every reactor of its snapshot. *)
Lemma call_all_runs fns fuel snapshot st st' :
  call_all (reactor fns fuel) snapshot st = Ok tt st' →
  ∃ new, trace st' = new ++ trace st ∧ ∀ r, r ∈ snapshot → ERun r ∈ new.
Proof.
  revert st. induction snapshot as [|r0 rest IH]; intros st; simpl.
  - intros H. inversion H; subst. exists []. split; [done|].
    by intros r ?%elem_of_nil.
  - unfold bind at 1.
    destruct (reactor fns fuel r0 st) as [[] st1| |] eqn:Hr0; [|done|done].
    intros Hrest. apply reactor_logs_run in Hr0 as (n1 & Ht1 & Hin1).
    apply IH in Hrest as (n2 & Ht2 & Hin2).
    exists (n2 ++ n1). split; [by rewrite Ht2, Ht1, app_assoc|].
    intros r. rewrite elem_of_cons, elem_of_app.
    intros [->|Hr]; [by right | left; auto].
Qed.

Lemma diamond_start_reads_registered : reads_registered diamond_start.
Proof.
  destruct (exec fns_diamond 1 diamond_script initial)
    as [v st| |] eqn:Hexec; [|by vm_compute in Hexec..].
  assert (diamond_start = st) as ->
    by (unfold diamond_start; by rewrite Hexec).
  by apply exec_reads_registered in Hexec.
Qed.

(** C4 (as amended).  A write through a signal compares the stored value
    with the new one by [!==].  When they are equal the write returns with
    the state untouched: no listener is called.  When they differ and the
    write returns, every reactor in the listener set of the property has
    been re-run at least once in between; in a state where the attributed
    reads are registered (every state a script reaches from a fresh module
    is one), these include every reactor to which a read of [s.p] has been
    attributed since its latest run began, [p] not being a member name of
    [Object.prototype]. *)
Theorem write_notifies_iff_changed fns fuel s p v target st :
  proxies st !! s = Some target →
  (strict_eq (obj_get (heap_obj st target) p) v = true →
     write_top fns fuel s p v st = Ok true st)
  ∧ (strict_eq (obj_get (heap_obj st target) p) v = false →
     ∀ b st', write_top fns fuel s p v st = Ok b st' →
       ∃ new, trace st' = new ++ trace st
         ∧ (∀ r, r ∈ listeners_of st s p → ERun r ∈ new)
         ∧ (reads_registered st → inherited_member p = None →
            ∀ r, ERead r (Some s) p ∈ since_run r (trace st) →
              ERun r ∈ new)).
Proof.
  intros Ht. unfold write_top. rewrite proxy_set_unfold, Ht. split.
  - by intros ->.
  - intros -> b st' Hw.
    assert (∃ new, trace st' = new ++ trace st
              ∧ ∀ r, r ∈ listeners_of st s p → ERun r ∈ new)
      as (new & Htr & Hall).
    { revert Hw. rewrite notifySet_unfold.
      change (getListeners (Some s) p (heap_set target p v st))
        with (getListeners (Some s) p st).
      unfold listeners_of.
      destruct (getListeners (Some s) p st) as [[snapshot|[|n]]|]; simpl.
      + destruct (call_all (reactor fns fuel) snapshot
                    (heap_set target p v st))
          as [[] st1| |] eqn:Hcall; [|done|done].
        intros H. inversion H; subst.
        by apply call_all_runs in Hcall.
      + intros H. inversion H; subst. exists []. split; [done|].
        by intros r ?%elem_of_nil.
      + done.
      + intros H. inversion H; subst. exists []. split; [done|].
        by intros r ?%elem_of_nil. }
    exists new. split; [done|]. split; [done|].
    intros Hreg Hp r Hread. by apply Hall, Hreg.
Qed.

Lemma write_notifies_iff_changed_witness :
  proxies diamond_start !! 0 = Some 0
  ∧ strict_eq (obj_get (heap_obj diamond_start 0) "p") (VNum 1) = false
  ∧ write_top fns_diamond 3 0 "p" (VNum 1) diamond_start = Ok true diamond_after
  ∧ listeners_of diamond_start 0 "p" = [0; 1]
  ∧ ERead 1 (Some 0) "p" ∈ since_run 1 (trace diamond_start)
  ∧ ∃ new, trace diamond_after = new ++ trace diamond_start
      ∧ (∀ r, r ∈ listeners_of diamond_start 0 "p" → ERun r ∈ new)
      ∧ ERun 1 ∈ new.
Proof.
  assert (proxies diamond_start !! 0 = Some 0) as Hp by (vm_compute; done).
  assert (strict_eq (obj_get (heap_obj diamond_start 0) "p") (VNum 1) = false)
    as Hne by (vm_compute; done).
  assert (write_top fns_diamond 3 0 "p" (VNum 1) diamond_start
          = Ok true diamond_after) as Hw by (vm_compute; done).
  assert (ERead 1 (Some 0) "p" ∈ since_run 1 (trace diamond_start)) as Hread
    by (vm_compute; apply elem_of_cons; by left).
  split; [exact Hp|]. split; [exact Hne|]. split; [exact Hw|].
  split; [vm_compute; reflexivity|]. split; [exact Hread|].
  destruct (proj2 (write_notifies_iff_changed fns_diamond 3 0 "p" (VNum 1) 0
                     diamond_start Hp) Hne true diamond_after Hw)
    as (new & Htr & Hall & Hreads).
  exists new. split; [exact Htr|]. split; [exact Hall|].
  exact (Hreads diamond_start_reads_registered eq_refl 1 Hread).
Defined.

(** C4 (counterexample).  [f0] reads [s.p] and [t.q]; [f1] reads [s.p] and
    copies it into [t.q].  One write [s.p = 1] calls both from the snapshot
    of [s.p], and the write of [f1] to [t.q] calls [f0] once more before
    the first write has returned: [f0] is re-run twice. *)
Lemma diamond_reruns_twice :
  0 ∈ listeners_of diamond_start 0 "p"
  ∧ strict_eq (obj_get (heap_obj diamond_start 0) "p") (VNum 1) = false
  ∧ write_top fns_diamond 3 0 "p" (VNum 1) diamond_start = Ok true diamond_after
  ∧ runs_since diamond_start diamond_after 0 = 2.
Proof.
  split; [vm_compute; apply elem_of_cons; by left|].
  split; [vm_compute; done|]. split; vm_compute; done.
Qed.

(** ** Deleting through a signal (C6) *)

Lemma obj_hasOwn_delete o p : obj_hasOwn (obj_delete o p) p = false.
Proof.
  unfold obj_hasOwn, obj_delete. simpl. rewrite alookup_adelete.
  rewrite decide_True by done. apply bool_decide_eq_false. by intros [? ?].
Qed.

Lemma signalHandler_deleteProperty_unfold call_reactor target p receiver st :
  signalHandler_deleteProperty call_reactor target p receiver st =
  if is_defined (obj_get (heap_obj st target) p) then
    match notifySet call_reactor receiver p (heap_delete target p st) with
    | Ok _ st' => Ok VUndef st'
    | Raised e st' => Raised e st'
    | OutOfFuel => OutOfFuel
    end
  else Ok VUndef st.
Proof.
  unfold signalHandler_deleteProperty, bind, gets, modify, ret. simpl.
  destruct (is_defined (obj_get (heap_obj st target) p)); [|done]. simpl.
  by destruct (notifySet call_reactor receiver p (heap_delete target p st)).
Qed.

(** C6 (as amended).  The delete trap reads the property from the
    underlying object.  When the value is not [undefined] it removes the own
    property and then calls [notifySet], whose outcome is the trap's; when
    the value is [undefined], be the property absent or present, the trap
    returns with the state untouched. *)
Theorem delete_removes_iff_defined fns fuel target p receiver st :
  target < length (heap st) →
  (obj_get (heap_obj st target) p ≠ VUndef →
     obj_hasOwn (heap_obj (heap_delete target p st) target) p = false
     ∧ signalHandler_deleteProperty (reactor fns fuel) target p receiver st
       = (let* _ := notifySet (reactor fns fuel) receiver p in ret VUndef)
           (heap_delete target p st))
  ∧ (obj_get (heap_obj st target) p = VUndef →
     signalHandler_deleteProperty (reactor fns fuel) target p receiver st
     = Ok VUndef st).
Proof.
  intros Hlt. rewrite signalHandler_deleteProperty_unfold. split.
  - intros Hdef. split.
    + unfold heap_obj at 1, heap_delete. simpl.
      rewrite list_lookup_insert_eq by done. simpl. apply obj_hasOwn_delete.
    + destruct (obj_get (heap_obj st target) p); try done;
        unfold bind, ret; simpl;
        by destruct (notifySet _ receiver p (heap_delete target p st)).
  - by intros ->.
Qed.

Lemma delete_removes_iff_defined_witness :
  (0 < length (heap undefined_property_start)
   ∧ obj_get (heap_obj undefined_property_start 0) "p" = VUndef
   ∧ signalHandler_deleteProperty (reactor fns_empty 1) 0 "p" None
       undefined_property_start
     = Ok VUndef undefined_property_start)
  ∧ (0 < length (heap diamond_start)
     ∧ obj_get (heap_obj diamond_start 0) "p" ≠ VUndef
     ∧ obj_hasOwn (heap_obj (heap_delete 0 "p" diamond_start) 0) "p" = false).
Proof.
  assert (0 < length (heap undefined_property_start)) as Hlt
    by (vm_compute; lia).
  assert (0 < length (heap diamond_start)) as Hlt' by (vm_compute; lia).
  assert (obj_get (heap_obj diamond_start 0) "p" ≠ VUndef) as Hdef
    by (vm_compute; done).
  split.
  - split; [exact Hlt|]. split; [reflexivity|].
    exact (proj2 (delete_removes_iff_defined fns_empty 1 0 "p" None
                    undefined_property_start Hlt) eq_refl).
  - split; [exact Hlt'|]. split; [exact Hdef|].
    exact (proj1 (proj1 (delete_removes_iff_defined fns_diamond 1 0 "p"
                           (Some 0) diamond_start Hlt') Hdef)).
Defined.

(** C6 (counterexample).  For [s = signal({p: undefined})] the property
    exists, and [delete s.p] neither removes it nor notifies: the guard at
    line 18 tests the value, not the presence. *)
Lemma delete_keeps_undefined_property :
  obj_hasOwn (heap_obj undefined_property_start 0) "p" = true
  ∧ delete_top fns_empty 1 0 "p" undefined_property_start
    = Ok false undefined_property_start.
Proof. split; vm_compute; done. Qed.

(** What the Proxy makes of the trap: [deleteProperty] is called without a
    receiver, so its [notifySet(undefined, property)] finds no listener set
    and no reactor is ever called by a delete; and the trap returns
    [undefined], which the [delete] operator of strict code turns into a
    [TypeError]. *)
Lemma delete_calls_no_listener call_reactor s p target st :
  proxies st !! s = Some target →
  proxy_delete call_reactor s p st
  = Ok false (if is_defined (obj_get (heap_obj st target) p)
              then heap_delete target p st else st).
Proof.
  intros Ht. unfold proxy_delete, target_of, bind, gets, ret, raise.
  rewrite Ht.
  rewrite signalHandler_deleteProperty_unfold.
  by destruct (is_defined (obj_get (heap_obj st target) p)).
Qed.

Lemma strict_delete_throws call_reactor s p k target st :
  proxies st !! s = Some target →
  ∃ st', run call_reactor (PDelete true s p k) st = Raised TypeError st'.
Proof.
  intros Ht. simpl. unfold bind at 1.
  rewrite (delete_calls_no_listener call_reactor s p target st Ht). eauto.
Qed.

(** ** Reading through a signal (C8, C9) *)

Lemma notifyGet_Some_total s p st :
  computeStack st = [] ∨ inherited_member p = None →
  ∃ st1, notifyGet (Some s) p st = Ok tt st1.
Proof.
  intros Hor. destruct (computeStack st) as [|c stack] eqn:H.
  - exists st. by apply notifyGet_idle.
  - destruct Hor as [?|Hp]; [done|].
    destruct (notifyGet_tracked c stack s p st H Hp) as (st1 & Heq & _).
    eauto.
Qed.

Lemma notifyGet_Ok_frame self p st st1 :
  notifyGet self p st = Ok tt st1 →
  heap st1 = heap st ∧ proxies st1 = proxies st.
Proof.
  destruct (notifyGet_cases self p st)
    as [H|[(c & st' & H & Hf)|(c & stack & s & H & -> & Hp)]].
  - rewrite H. intros Heq. by inversion Heq.
  - by rewrite H.
  - destruct (notifyGet_tracked c stack s p st H Hp)
      as (st' & Heq & _ & _ & _ & _ & _ & Hh & Hx & _).
    rewrite Heq. intros Heq'. by inversion Heq'; subst.
Qed.

(** What the Proxy makes of the [has] trap: it is called without a
    receiver.  Outside every reactor [notifyGet] has nothing to do; inside
    one it calls [setListeners(undefined, ...)], which throws at
    [listenersMap.set]. *)
Lemma has_outside_reactors s p target st :
  proxies st !! s = Some target → computeStack st = [] →
  proxy_has s p st = Ok (obj_hasOwn (heap_obj st target) p) st.
Proof.
  intros Ht Hc. unfold proxy_has, target_of, signalHandler_has, bind, gets,
    ret, raise.
  rewrite Ht. by rewrite (notifyGet_idle None p st Hc).
Qed.

Lemma has_inside_reactor_throws s p target c stack st :
  proxies st !! s = Some target → computeStack st = c :: stack →
  proxy_has s p st = Raised TypeError (log (ERead c None p) st).
Proof.
  intros Ht Hc. unfold proxy_has, target_of, signalHandler_has, bind, gets,
    ret, raise.
  rewrite Ht. by rewrite (notifyGet_undefined c stack p st Hc).
Qed.




(** ** Stale edges (C7) *)

Lemma events_since_app st st' new :
  trace st' = new ++ trace st → events_since st st' = new.
Proof.
  intros H. unfold events_since. rewrite H, length_app.
  replace (length new + length (trace st) - length (trace st))
    with (length new) by lia.
  apply take_app_length.
Qed.





(** After that second run a change of [s.p] wakes nobody: the write
    returns and no reactor body has been entered. *)
Lemma conditional_write_runs_nobody :
  ∃ st, write_top fns_conditional 1 0 "p" (VNum 7) conditional_after
        = Ok true st
    ∧ runs_since conditional_after st 0 = 0
    ∧ events_since conditional_after st = [].
Proof.
  eexists. split; [vm_compute; reflexivity|]. split; vm_compute; done.
Qed.

(** ** Writes that wake nobody *)

Lemma bind_Ok_inv {A B} (m : M A) (k : A → M B) st b st' :
  bind m k st = Ok b st' → ∃ a st1, m st = Ok a st1 ∧ k a st1 = Ok b st'.
Proof.
  unfold bind. destruct (m st) as [a st1| |]; [|done|done]. eauto.
Qed.

Lemma proxies_grow_closed : step_closed proxies_grow proxies_grow.
Proof.
  apply step_closed_uniform; unfold proxies_grow; try (simpl; intros; auto; fail).
  - intros self p st.
    destruct (notifyGet_cases self p st)
      as [H|[(c & st' & H & Hf)|(c & stack & s & H & -> & Hp)]].
    + rewrite H. simpl. auto.
    + rewrite H. simpl. destruct Hf as (_ & _ & _ & _ & _ & _ & _ & Hx & _).
      by rewrite Hx.
    + destruct (notifyGet_tracked c stack s p st H Hp)
        as (st' & Heq & _ & _ & _ & _ & _ & _ & Hx & _).
      rewrite Heq. simpl. by rewrite Hx.
  - intros r st s t. by destruct (clearListeners_frame r st)
      as (_ & _ & _ & _ & _ & -> & _).
  - simpl. intros v st s t H. rewrite lookup_app_l; [done|].
    by eapply lookup_lt_Some.
Qed.

Lemma own_property_heap_set st target key key' v :
  key ≠ key' →
  own_property (heap_set target key' v st) target key
  = own_property st target key.
Proof.
  intros Hne. unfold own_property, heap_obj, heap_set. simpl.
  destruct (decide (target < length (heap st))) as [Hlt|Hge].
  - rewrite list_lookup_insert_eq by done. simpl. rewrite alookup_aset.
    by rewrite decide_False.
  - by rewrite list_insert_ge by lia.
Qed.

Lemma strict_eq_true a b : strict_eq a b = true → a = b.
Proof.
  destruct a, b; simpl; try done.
  - intros H. by apply Bool.eqb_prop in H as ->.
  - intros H. by apply Z.eqb_eq in H as ->.
  - intros H. by apply Nat.eqb_eq in H as ->.
  - intros H. by apply Nat.eqb_eq in H as ->.
Qed.

Lemma obj_get_obj_set o p v q :
  obj_get (obj_set o p v) q = if decide (q = p) then v else obj_get o q.
Proof.
  unfold obj_get, obj_set. simpl. rewrite alookup_aset.
  by case_decide.
Qed.

Lemma listeners_of_nil_snapshot st s p :
  inherited_member p = None →
  listeners_of st s p = [] →
  getListeners (Some s) p st = None
  ∨ getListeners (Some s) p st = Some (Reactors []).
Proof.
  intros Hp. unfold listeners_of, getListeners. rewrite Hp.
  destruct (listenersMap st !! s) as [L|]; [|by left].
  destruct (L !! p); simpl; [intros ->; by right | by left].
Qed.

(** A write to a property without listeners, whatever the fuel. *)
Lemma quiet_write call_reactor s target p v st :
  proxies st !! s = Some target →
  inherited_member p = None →
  listeners_of st s p = [] →
  proxy_set call_reactor s p v st
  = Ok true (if strict_eq (obj_get (heap_obj st target) p) v then st
             else heap_set target p v st).
Proof.
  intros Ht Hp Hl. rewrite proxy_set_unfold, Ht.
  destruct (strict_eq (obj_get (heap_obj st target) p) v); [done|].
  rewrite notifySet_unfold.
  change (getListeners (Some s) p (heap_set target p v st))
    with (getListeners (Some s) p st).
  by destruct (listeners_of_nil_snapshot st s p Hp Hl) as [-> | ->].
Qed.

(** A read through a signal of a name that is not a member name of
    [Object.prototype] returns, with the value the object holds. *)
Lemma reads_forward_total s target p st :
  proxies st !! s = Some target →
  inherited_member p = None →
  ∃ st1, proxy_get s p st = Ok (obj_get (heap_obj st target) p) st1.
Proof.
  intros Ht Hp.
  destruct (notifyGet_Some_total s p st (or_intror Hp)) as [st1 Hn].
  exists st1. rewrite proxy_get_unfold, Ht, Hn.
  apply notifyGet_Ok_frame in Hn as [Hh _]. unfold heap_obj. by rewrite Hh.
Qed.

(** ** The merge, key by key *)

Section MergeStores.

Variable call_reactor : rid → M unit.
Variables (to : sigid) (target r : ref) (o : Obj).
Hypothesis distinct : r ≠ target.

Lemma assign_keys_quiet keys st :
  keys ⊆ (own o).*1 →
  merge_quiet to target r o keys st →
  ∃ st', assign_keys call_reactor to (VObj r) keys st = Ok tt st'
    ∧ listenersMap st' = listenersMap st ∧ trace st' = trace st
    ∧ proxies st' = proxies st ∧ heap st' !! r = Some o
    ∧ computeStack st' = computeStack st
    ∧ (∀ k, k ∈ keys →
         obj_get (heap_obj st' target) k = obj_get o k)
    ∧ (∀ k, k ∉ keys →
         obj_get (heap_obj st' target) k = obj_get (heap_obj st target) k
         ∧ own_property st' target k = own_property st target k).
Proof.
  revert st. induction keys as [|key rest IH]; intros st Hsub Hq.
  - exists st. destruct Hq as (_ & Hr & _). simpl. repeat split; try done.
    by intros k ?%elem_of_nil.
  - destruct Hq as (Hp & Hr & Hlt & Hl).
    assert (key ∈ (own o).*1) as Hkey by (apply Hsub, elem_of_cons; by left).
    assert (heap_obj st r = o) as Ho by (unfold heap_obj; by rewrite Hr).
    assert (obj_hasOwn o key = true) as Hown.
    { apply bool_decide_eq_true.
      destruct (alookup key (own o)) eqn:Hlk; [by eexists|].
      by apply alookup_None_keys in Hlk. }
    destruct (Hl key) as [Hin0 Hl0]; [apply elem_of_cons; by left|].
    cbn [assign_keys]. unfold bind at 1, gets at 1.
    cbn [source_has_own]. rewrite Ho, Hown.
    unfold bind at 1. cbn [source_get]. unfold gets at 1. rewrite Ho.
    unfold bind at 1.
    rewrite (quiet_write call_reactor to target key (obj_get o key) st Hp
               Hin0 Hl0).
    set (st1 := if strict_eq (obj_get (heap_obj st target) key) (obj_get o key)
                then st else heap_set target key (obj_get o key) st).
    assert (listenersMap st1 = listenersMap st ∧ trace st1 = trace st
            ∧ proxies st1 = proxies st ∧ heap st1 !! r = Some o
            ∧ computeStack st1 = computeStack st
            ∧ target < length (heap st1)
            ∧ obj_get (heap_obj st1 target) key = obj_get o key
            ∧ ∀ k, k ≠ key →
                obj_get (heap_obj st1 target) k = obj_get (heap_obj st target) k
                ∧ own_property st1 target k = own_property st target k)
      as (Hlm & Htr & Hpx & Hr1 & Hcs1 & Hlt1 & Hk1 & Hother).
    { subst st1.
      destruct (strict_eq (obj_get (heap_obj st target) key) (obj_get o key))
        eqn:Heq.
      - apply strict_eq_true in Heq. by repeat split.
      - split; [done|]. split; [done|]. split; [done|].
        split; [simpl; by rewrite list_lookup_insert_ne|].
        split; [done|].
        split; [simpl; by rewrite length_insert|]. split.
        + rewrite heap_obj_heap_set, decide_True by done.
          by rewrite obj_get_obj_set, decide_True.
        + intros k Hk. split.
          * rewrite heap_obj_heap_set, decide_True by done.
            by rewrite obj_get_obj_set, decide_False.
          * by apply own_property_heap_set. }
    destruct (IH st1)
      as (st' & Hrun & Hlm' & Htr' & Hpx' & Hr' & Hcs' & Hin & Hout).
    { intros k Hk. apply Hsub, elem_of_cons. by right. }
    { split; [by rewrite Hpx|]. split; [done|]. split; [done|].
      intros k Hk. rewrite (listeners_of_same st st1 Hlm).
      apply Hl, elem_of_cons. by right. }
    exists st'. split; [exact Hrun|].
    split; [by rewrite Hlm'|]. split; [by rewrite Htr'|].
    split; [by rewrite Hpx'|]. split; [done|].
    split; [by rewrite Hcs'|]. split.
    + intros k Hk. destruct (decide (k ∈ rest)) as [Hrest|Hrest];
        [by apply Hin|].
      apply elem_of_cons in Hk as [->|?]; [|done].
      destruct (Hout key Hrest) as [-> _]. done.
    + intros k Hk. apply not_elem_of_cons in Hk as [Hne Hrest].
      destruct (Hout k Hrest) as [-> ->]. by apply Hother.
Qed.

(** The whole merge of a plain object nobody listens to the keys of. *)
Lemma object_assign_quiet st :
  merge_quiet to target r o (own_keys o) st →
  ∃ st', object_assign call_reactor to (VObj r) st = Ok tt st'
    ∧ listenersMap st' = listenersMap st ∧ trace st' = trace st
    ∧ proxies st' = proxies st ∧ heap st' !! r = Some o
    ∧ computeStack st' = computeStack st
    ∧ (∀ k, k ∈ own_keys o →
         obj_get (heap_obj st' target) k = obj_get o k)
    ∧ (∀ k, k ∉ own_keys o →
         obj_get (heap_obj st' target) k = obj_get (heap_obj st target) k
         ∧ own_property st' target k = own_property st target k).
Proof.
  intros Hq.
  destruct (assign_keys_quiet (own_keys o) st) as (st' & Hrun & Hrest);
    [by intros k ?%own_keys_elem | done |].
  exists st'. split; [|done].
  unfold object_assign, bind, gets. cbn [source_keys].
  destruct Hq as (_ & Hr & _). unfold heap_obj. rewrite Hr. exact Hrun.
Qed.

End MergeStores.

(** ** The merge into the output signal (C10) *)





(** The second run of the conditional reactor returns [{}]; the key [seen]
    that its first run wrote is still on the output signal. *)
Lemma conditional_rerun_keeps_seen :
  reactors conditional_start !! 0 = Some (0, 1)
  ∧ proxies conditional_start !! 1 = Some 1
  ∧ own_property conditional_start 1 "seen" = Some (VNum 0)
  ∧ reactor fns_conditional 1 0 conditional_start = Ok tt conditional_after
  ∧ own_property conditional_after 1 "seen" = Some (VNum 0).
Proof.
  split; [vm_compute; done|]. split; [vm_compute; done|].
  split; [vm_compute; done|]. split; vm_compute; done.
Qed.

(** ** Nested objects (C9) *)

(** C9 (as amended).  When the value stored at [s.p] is a plain object,
    reading [s.p] returns that very object and creates no proxy.  A script
    that reads [s.p] and then reads or writes a property [q] of the object
    it got goes on from the state the read of [s.p] left, with [q] written
    in the second case: no reactor is called, whoever is registered for
    [q], and no listener set other than that of [(s, p)] has changed.
    Neither [p] nor [q] is a member name of [Object.prototype]. *)
Theorem nested_object_is_raw call_reactor s target p r q w st :
  proxies st !! s = Some target →
  obj_get (heap_obj st target) p = VObj r →
  is_Some (heap st !! r) →
  inherited_member p = None →
  inherited_member q = None →
  ∃ st1,
    proxy_get s p st = Ok (VObj r) st1
    ∧ proxies st1 = proxies st ∧ heap st1 = heap st
    ∧ (∀ k other,
         run call_reactor
           (PGet s p (λ inner,
              match inner with
              | VObj n => PRawGet n q k
              | _ => other inner
              end)) st
         = run call_reactor (k (obj_get (heap_obj st r) q)) st1)
    ∧ (∀ k other,
         run call_reactor
           (PGet s p (λ inner,
              match inner with
              | VObj n => PRawSet n q w k
              | _ => other inner
              end)) st
         = run call_reactor k (heap_set r q w st1))
    ∧ (∀ s' p', ¬ (s' = s ∧ p' = p) →
         listeners_of (heap_set r q w st1) s' p' = listeners_of st s' p')
    ∧ (∀ c, ERun c ∉ events_since st (heap_set r q w st1)).
Proof.
  intros Ht Hv [nested Hr] Hp _.
  destruct (notifyGet_Some_total s p st (or_intror Hp)) as [st1 Hn].
  exists st1.
  assert (proxy_get s p st = Ok (VObj r) st1) as Hget.
  { rewrite proxy_get_unfold, Ht, Hn.
    apply notifyGet_Ok_frame in Hn as [Hh _]. unfold heap_obj in *.
    by rewrite Hh, Hv. }
  pose proof (notifyGet_Ok_frame _ _ _ _ Hn) as [Hh Hx].
  split; [done|]. split; [done|]. split; [done|]. split; [|split; [|split]].
  - intros k other. cbn [run]. unfold bind at 1. rewrite Hget.
    cbn [run]. unfold bind at 1, gets at 1. rewrite Hh, Hr.
    unfold heap_obj. by rewrite Hr.
  - intros k other. cbn [run]. unfold bind at 1. rewrite Hget.
    cbn [run]. unfold bind at 1, gets at 1. rewrite Hh, Hr.
    by unfold bind, modify.
  - intros s' p' Hne.
    change (listeners_of st1 s' p' = listeners_of st s' p').
    destruct (computeStack st) as [|c stack] eqn:Hc.
    + rewrite (notifyGet_idle _ _ _ Hc) in Hn. by inversion Hn.
    + destruct (notifyGet_tracked c stack s p st Hc Hp)
        as (st' & Heq & Hl & _).
      assert (st' = st1) as -> by congruence.
      by rewrite Hl, decide_False.
  - intros c.
    destruct (computeStack st) as [|c0 stack] eqn:Hc.
    + rewrite (notifyGet_idle _ _ _ Hc) in Hn.
      assert (st1 = st) as -> by (by inversion Hn).
      rewrite (events_since_app st _ []) by done. apply not_elem_of_nil.
    + destruct (notifyGet_tracked c0 stack s p st Hc Hp)
        as (st' & Heq & _ & _ & Htr & _).
      assert (st' = st1) as -> by congruence.
      rewrite (events_since_app st _ [ERead c0 (Some s) p]) by done.
      by intros Hin%list_elem_of_singleton.
Qed.

Lemma nested_object_is_raw_witness :
  proxies nested_start !! 1 = Some 1
  ∧ obj_get (heap_obj nested_start 1) "inner" = VObj 0
  ∧ proxies nested_start !! 0 = Some 0
  ∧ listeners_of nested_start 0 "x" = [0]
  ∧ ∃ st1, proxy_get 1 "inner" nested_start = Ok (VObj 0) st1
      ∧ exec fns_inner 1 nested_write nested_start
        = Ok VUndef (heap_set 0 "x" (VNum 2) st1)
      ∧ ∀ c, ERun c ∉ events_since nested_start (heap_set 0 "x" (VNum 2) st1).
Proof.
  assert (proxies nested_start !! 1 = Some 1) as Ht by (vm_compute; done).
  assert (obj_get (heap_obj nested_start 1) "inner" = VObj 0) as Hv
    by (vm_compute; done).
  assert (is_Some (heap nested_start !! 0)) as Hr
    by (vm_compute; by eexists).
  split; [exact Ht|]. split; [exact Hv|]. split; [vm_compute; done|].
  split; [vm_compute; done|].
  destruct (nested_object_is_raw (reactor fns_inner 1) 1 1 "inner" 0 "x"
              (VNum 2) nested_start Ht Hv Hr eq_refl eq_refl)
    as (st1 & Hget & _ & _ & _ & Hset & _ & Hquiet).
  exists st1. split; [exact Hget|]. split; [|exact Hquiet].
  exact (Hset (PRet VUndef) (λ _, PThrow)).
Defined.

(** C9 (counterexample).  For [s = signal({inner: signal({x: 1})})] the
    value stored at [s.inner] is an object, and reading it returns a
    signal.  The reactor [() => ({seen: s.inner.x})] is registered for [x]
    on that inner signal, and [s.inner.x = 2] runs it again. *)
Lemma nested_signal_is_reactive :
  proxy_get 1 "inner" nested_signal_start = Ok (VSig 0) nested_signal_start
  ∧ listeners_of nested_signal_start 0 "x" = [0]
  ∧ ∃ st', exec fns_nested 1 nested_signal_write nested_signal_start
           = Ok VUndef st'
      ∧ runs_since nested_signal_start st' 0 = 1.
Proof.
  split; [vm_compute; reflexivity|]. split; [vm_compute; reflexivity|].
  eexists. split; [vm_compute; reflexivity|]. vm_compute. reflexivity.
Qed.

(** * Further properties of the module *)

(** ** Whole scripts *)

(** X1.  Whatever a script does (signals, reads, writes, deletes, nested
    [update]s, cascades of reactors), if it returns then [computeStack] is
    as it was before, so the reads that follow are attributed as before;
    if it throws, the frames that were there are all still there, under
    the frames the failed reactor calls left. *)
Theorem script_returns_balanced fns fuel c st :
  (∀ v st', exec fns fuel c st = Ok v st' →
     computeStack st' = computeStack st)
  ∧ (∀ e st', exec fns fuel c st = Raised e st' →
       ∃ left_over, computeStack st' = left_over ++ computeStack st).
Proof.
  pose proof (exec_keeps _ _ fns fuel c stack_closed st) as Hk.
  split; intros x st' H; by rewrite H in Hk.
Qed.

(** X2.  From a listener graph in which every forward edge has its back
    edge, every script ends, by returning or by throwing, in a graph that
    has the same property: [clearListeners] can always find, through
    [computeMap], every listener set a reactor sits in. *)
Theorem script_keeps_forward_in_back fns fuel c st :
  forward_in_back st →
  (∀ v st', exec fns fuel c st = Ok v st' → forward_in_back st')
  ∧ (∀ e st', exec fns fuel c st = Raised e st' → forward_in_back st').
Proof.
  intros Hinv.
  pose proof (exec_keeps _ _ fns fuel c forward_in_back_closed st) as Hk.
  split; intros x st' H; rewrite H in Hk; by apply Hk.
Qed.

Lemma script_keeps_forward_in_back_witness :
  forward_in_back initial
  ∧ exec fns_doubled 1 doubled_script initial = Ok (VNum 10) doubled_end
  ∧ forward_in_back doubled_end.
Proof.
  assert (exec fns_doubled 1 doubled_script initial = Ok (VNum 10) doubled_end)
    as H by (vm_compute; reflexivity).
  split; [exact forward_in_back_initial|]. split; [exact H|].
  exact (proj1 (script_keeps_forward_in_back fns_doubled 1 doubled_script
                  initial forward_in_back_initial) (VNum 10) doubled_end H).
Defined.

(** X3.  A call [update(fn)] that throws, for whatever reason, leaves [fn]
    on [reactStack]: every later [update(fn)] is refused with the recursion
    error, so a function whose registration failed once cannot be
    registered again. *)
Theorem failed_update_blocks_fn fns fuel fuel' fn e st st' :
  update_top fns fuel fn st = Raised e st' →
  update_top fns fuel' fn st' = Raised (RecursiveInvocation fn) st'.
Proof.
  intros H. pose proof (update_leaves_guard fns fuel fn st) as Hg.
  rewrite H in Hg. simpl in Hg. unfold update_top. by apply update_guard.
Qed.

Lemma failed_update_blocks_fn_witness :
  update_top fns_throw 1 0 initial = Raised UserError after_failed_update
  ∧ update_top fns_throw 1 0 after_failed_update
    = Raised (RecursiveInvocation 0) after_failed_update.
Proof.
  assert (update_top fns_throw 1 0 initial
          = Raised UserError after_failed_update) as H
    by (vm_compute; reflexivity).
  split; [exact H|].
  exact (failed_update_blocks_fn fns_throw 1 1 0 UserError initial
           after_failed_update H).
Defined.

(** ** Registering and clearing edges *)


Lemma set_delete_idem c l : set_delete c (set_delete c l) = set_delete c l.
Proof.
  unfold set_delete. induction l as [|x l IH]; [done|].
  rewrite filter_cons. case_decide; [|done].
  rewrite filter_cons, decide_True by done. by rewrite IH.
Qed.

Lemma set_delete_absent c l : c ∉ l → set_delete c l = l.
Proof.
  unfold set_delete. induction l as [|x l IH]; [done|].
  intros Hn. apply not_elem_of_cons in Hn as [Hne Hn].
  rewrite filter_cons, decide_True by done. by rewrite IH.
Qed.




Lemma clear_edge_listeners c p s st s' p' :
  listeners_of (clear_edge c p s st) s' p' = listeners_of st s' p'
  ∨ listeners_of (clear_edge c p s st) s' p'
    = set_delete c (listeners_of st s' p').
Proof.
  destruct (clear_edge_spec c p s st) as [H _]. rewrite H.
  case_decide as Hd; [|by left]. destruct Hd as [-> ->]. by right.
Qed.

Lemma clear_property_listeners c p sigs st s' p' :
  listeners_of (clear_property c p sigs st) s' p' = listeners_of st s' p'
  ∨ listeners_of (clear_property c p sigs st) s' p'
    = set_delete c (listeners_of st s' p').
Proof.
  unfold clear_property. revert st.
  induction sigs as [|s sigs IH]; intros st; simpl; [by left|].
  destruct (IH (clear_edge c p s st)) as [->| ->];
    destruct (clear_edge_listeners c p s st s' p') as [->| ->];
    rewrite ?set_delete_idem; auto.
Qed.

Lemma clear_entries_listeners c entries st s' p' :
  listeners_of (clear_entries c entries st) s' p' = listeners_of st s' p'
  ∨ listeners_of (clear_entries c entries st) s' p'
    = set_delete c (listeners_of st s' p').
Proof.
  unfold clear_entries. revert st.
  induction entries as [|[p0 sigs0] entries IH]; intros st; simpl; [by left|].
  destruct (IH (clear_property c p0 sigs0 st)) as [->| ->];
    destruct (clear_property_listeners c p0 sigs0 st s' p') as [->| ->];
    rewrite ?set_delete_idem; auto.
Qed.

(** What [clearListeners] makes of each listener set, when every forward
    edge has its back edge: the set without the reactor, the others in the
    order they were in. *)
Lemma clearListeners_listeners c st s p :
  forward_in_back st →
  listeners_of (clearListeners c st) s p = set_delete c (listeners_of st s p).
Proof.
  intros Hinv.
  assert (listeners_of (clearListeners c st) s p = listeners_of st s p
          ∨ listeners_of (clearListeners c st) s p
            = set_delete c (listeners_of st s p)) as [Heq|Heq].
  { unfold clearListeners. destruct (computeMap st !! c); [|by left].
    apply clear_entries_listeners. }
  - rewrite Heq. symmetry. apply set_delete_absent. intros Hin.
    apply (clearListeners_removes c st s p); [by apply Hinv|].
    unfold forward. by rewrite Heq.
  - done.
Qed.

(** X5.  The order in which [notifySet] calls the listeners of a property is
    the order of their latest registration.  When a reactor re-runs,
    [clearListeners] takes it out of every listener set and leaves the
    other reactors in place and in order; the first read of [s.p] in the
    new run ([p] not a member name of [Object.prototype]) then puts it at
    the end of the set of [s.p]. *)
Theorem rerun_registers_last c s p st :
  forward_in_back st →
  inherited_member p = None →
  ∃ st', setListeners (Some s) p c (clearListeners c st) = Ok tt st'
    ∧ listeners_of st' s p = set_delete c (listeners_of st s p) ++ [c]
    ∧ ∀ s' p', ¬ (s' = s ∧ p' = p) →
        listeners_of st' s' p' = set_delete c (listeners_of st s' p').
Proof.
  intros Hinv Hp.
  destruct (setListeners_Some s p c (clearListeners c st) Hp)
    as (st' & Heq & Hl & _).
  exists st'. split; [done|]. split.
  - rewrite Hl, decide_True by done.
    rewrite clearListeners_listeners by done.
    unfold set_add. rewrite decide_False; [done|].
    intros Hin. apply elem_of_set_delete in Hin. tauto.
  - intros s' p' Hne. rewrite Hl, decide_False by done.
    by apply clearListeners_listeners.
Qed.

Lemma rerun_registers_last_witness :
  forward_in_back diamond_start
  ∧ listeners_of diamond_start 0 "p" = [0; 1]
  ∧ ∃ st', setListeners (Some 0) "p" 0 (clearListeners 0 diamond_start)
           = Ok tt st'
      ∧ listeners_of st' 0 "p" = [1; 0].
Proof.
  split; [exact diamond_start_forward_in_back|].
  split; [vm_compute; reflexivity|].
  destruct (rerun_registers_last 0 0 "p" diamond_start
              diamond_start_forward_in_back eq_refl)
    as (st' & Heq & Hl & _).
  exists st'. split; [exact Heq|]. rewrite Hl. vm_compute. reflexivity.
Defined.

(** ** Writes nobody listens to *)

(** X6.  The listeners of a property are looked up under the signal that is
    written through.  A write [s.p = v] ([p] not a member name of
    [Object.prototype]) through a signal [s] for whose [p] nobody is
    registered is a plain store, at no cost in reactor calls: it returns,
    no reactor body is entered, the listener graph is as before, the other
    properties read as before, and [p] reads back as [v] through every
    signal over the same object, and this even when reactors are
    registered for [p] under another signal over that object. *)
Theorem unsubscribed_write_stores fns fuel s target p v st :
  proxies st !! s = Some target →
  target < length (heap st) →
  inherited_member p = None →
  listeners_of st s p = [] →
  ∃ st', write_top fns fuel s p v st = Ok true st'
    ∧ events_since st st' = []
    ∧ listenersMap st' = listenersMap st
    ∧ (∀ q, q ≠ p →
         obj_get (heap_obj st' target) q = obj_get (heap_obj st target) q)
    ∧ ∀ s2, proxies st !! s2 = Some target →
        ∃ st'', proxy_get s2 p st' = Ok v st''.
Proof.
  intros Ht Hlt Hp Hl. unfold write_top.
  rewrite (quiet_write _ s target p v st Ht Hp Hl).
  eexists. split; [reflexivity|].
  destruct (strict_eq (obj_get (heap_obj st target) p) v) eqn:Heq.
  - apply strict_eq_true in Heq.
    split; [by apply (events_since_app st st [])|]. split; [done|].
    split; [done|]. intros s2 Ht2.
    destruct (reads_forward_total s2 target p st Ht2 Hp) as (st'' & H).
    exists st''. by rewrite H, Heq.
  - split; [by apply (events_since_app st _ [])|]. split; [done|]. split.
    + intros q Hq. rewrite heap_obj_heap_set by done.
      rewrite decide_True by done. rewrite obj_get_obj_set.
      by rewrite decide_False.
    + intros s2 Ht2.
      destruct (reads_forward_total s2 target p
                  (heap_set target p v st) Ht2 Hp) as (st'' & H).
      exists st''. rewrite H. rewrite heap_obj_heap_set by done.
      rewrite decide_True by done. rewrite obj_get_obj_set.
      by rewrite decide_True.
Qed.

Lemma unsubscribed_write_stores_witness :
  proxies alias_start !! 0 = Some 0
  ∧ proxies alias_start !! 1 = Some 0
  ∧ listeners_of alias_start 1 "p" = [0]
  ∧ listeners_of alias_start 0 "p" = []
  ∧ ∃ st', write_top fns_alias 1 0 "p" (VNum 1) alias_start = Ok true st'
      ∧ events_since alias_start st' = []
      ∧ ∃ st'', proxy_get 1 "p" st' = Ok (VNum 1) st''.
Proof.
  assert (proxies alias_start !! 0 = Some 0) as H0 by (vm_compute; done).
  assert (proxies alias_start !! 1 = Some 0) as H1 by (vm_compute; done).
  assert (0 < length (heap alias_start)) as Hlt by (vm_compute; lia).
  assert (listeners_of alias_start 0 "p" = []) as Hl by (vm_compute; done).
  split; [exact H0|]. split; [exact H1|]. split; [vm_compute; done|].
  split; [exact Hl|].
  destruct (unsubscribed_write_stores fns_alias 1 0 0 "p" (VNum 1)
              alias_start H0 Hlt eq_refl Hl)
    as (st' & Hw & He & _ & _ & Hread).
  exists st'. split; [exact Hw|]. split; [exact He|]. exact (Hread 1 H1).
Defined.

(** ** The merge that wakes nobody *)

(** X7.  [Object.assign(connectedSignal, result)] for a result object,
    other than the object behind the output signal, whose keys nobody
    listens to on the output signal (none of them a member name of
    [Object.prototype]): the merge returns without calling any reactor,
    every key of the result then reads through the output signal as the
    result has it, every other property reads as before, and the result
    object, the listener graph and the trace are untouched. *)
Theorem merge_stores_result fns fuel to target r o st :
  proxies st !! to = Some target →
  heap st !! r = Some o →
  r ≠ target →
  target < length (heap st) →
  (∀ k, k ∈ own_keys o →
     inherited_member k = None ∧ listeners_of st to k = []) →
  ∃ st', object_assign (reactor fns fuel) to (VObj r) st = Ok tt st'
    ∧ (∀ k, k ∈ own_keys o →
         obj_get (heap_obj st' target) k = obj_get o k)
    ∧ (∀ k, k ∉ own_keys o →
         obj_get (heap_obj st' target) k = obj_get (heap_obj st target) k)
    ∧ heap st' !! r = Some o
    ∧ listenersMap st' = listenersMap st ∧ trace st' = trace st.
Proof.
  intros Hp Hr Hne Hlt Hl.
  destruct (object_assign_quiet (reactor fns fuel) to target r o Hne st)
    as (st' & Hrun & Hlm & Htr & _ & Hr' & _ & Hin & Hout).
  { split; [done|]. split; [done|]. split; [done|]. exact Hl. }
  exists st'. split; [exact Hrun|]. split; [exact Hin|].
  split; [|by repeat split]. intros k Hk. by destruct (Hout k Hk).
Qed.

Lemma merge_stores_result_witness :
  ∃ st', object_assign (reactor fns_empty 1) 0 (VObj 1) shrink_start = Ok tt st'
    ∧ obj_get (heap_obj st' 0) "a" = VNum 3
    ∧ obj_get (heap_obj st' 0) "b" = VNum 2.
Proof.
  destruct (merge_stores_result fns_empty 1 0 0 1 (mkObj [("a", VNum 3)] [])
              shrink_start) as (st' & Hrun & Hin & Hout & _).
  - reflexivity.
  - reflexivity.
  - done.
  - vm_compute. lia.
  - intros k Hk. apply list_elem_of_singleton in Hk as ->.
    split; vm_compute; reflexivity.
  - exists st'. split; [exact Hrun|]. split.
    + rewrite Hin; [reflexivity|]. by apply list_elem_of_singleton.
    + rewrite Hout; [reflexivity|].
      by intros Hk%list_elem_of_singleton.
Defined.

(** ** What [update] has done when it returns *)

Lemma reactors_grow_closed : step_closed reactors_grow reactors_grow.
Proof.
  apply step_closed_uniform; unfold reactors_grow;
    try (simpl; intros; auto; fail).
  - intros self p st.
    destruct (notifyGet_cases self p st)
      as [H|[(c & st' & H & Hf)|(c & stack & s & Hc & -> & Hp)]].
    + rewrite H. simpl. auto.
    + rewrite H. simpl. destruct Hf as (_ & _ & _ & _ & _ & _ & _ & _ & Hr).
      by rewrite Hr.
    + destruct (notifyGet_tracked c stack s p st Hc Hp)
        as (st' & H & _ & _ & _ & _ & _ & _ & _ & Hr).
      rewrite H. simpl. by rewrite Hr.
  - intros r st r' c. by destruct (clearListeners_frame r st)
      as (_ & _ & _ & _ & _ & _ & ->).
  - simpl. intros c st r c' H. rewrite lookup_app_l; [done|].
    by eapply lookup_lt_Some.
Qed.

(** X8.  [update(fn)] runs [fn] at once and hands its result out through
    the signal it returns.  When the computation of [fn], called by the
    closure [update] has just made, returns a plain object whose keys
    nobody listens to on the output signal (none of them a member name of
    [Object.prototype]; the object is not the one behind the output signal,
    which [update] keeps to itself), [update(fn)] returns the output signal,
    every key of the result reads through it with the value [fn] gave it,
    nothing has run since [fn] returned, and the closure is on record with
    [fn] and that signal. *)
Theorem update_runs_at_once fns fuel fn st cs r st1 res o target st2 :
  fn ∉ reactStack st →
  update_entry fn st = (cs, r, st1) →
  run (reactor fns fuel) (fns fn) (reactor_entry r st1) = Ok (VObj res) st2 →
  proxies st2 !! cs = Some target →
  heap st2 !! res = Some o →
  res ≠ target →
  target < length (heap st2) →
  (∀ k, k ∈ own_keys o →
     inherited_member k = None ∧ listeners_of st2 cs k = []) →
  ∃ st', update_top fns (S fuel) fn st = Ok (VSig cs) st'
    ∧ (∀ k, k ∈ own_keys o →
         ∃ st'', proxy_get cs k st' = Ok (obj_get o k) st'')
    ∧ trace st' = trace st2
    ∧ reactors st' !! r = Some (fn, cs).
Proof.
  intros Hin He Hrun Hp Ho Hne Hlt Hl.
  destruct (update_entry_closure _ _ _ _ _ He) as [Hr _].
  destruct (object_assign_quiet (reactor fns fuel) cs target res o Hne
              (pop_computeStack st2))
    as (st' & Hm & _ & Htr & Hpx & _ & _ & Hkeys & _).
  { split; [done|]. split; [done|]. split; [done|]. exact Hl. }
  assert (reactor fns (S fuel) r st1 = Ok tt st') as Hre.
  { simpl. by rewrite reactor_body_unfold, Hr, Hrun. }
  exists st'. split; [|split; [|split; [done|]]].
  - unfold update_top. rewrite update_unfold. rewrite decide_False by done.
    by rewrite He, Hre.
  - intros k Hk. destruct (Hl k Hk) as [Hnk _].
    destruct (reads_forward_total cs target k st') as (st'' & Hget);
      [by rewrite Hpx | done |].
    exists st''. by rewrite Hget, Hkeys.
  - pose proof (reactor_keeps _ _ fns (S fuel) r reactors_grow_closed st1)
      as Hk.
    rewrite Hre in Hk. by apply Hk.
Qed.

Lemma update_runs_at_once_witness :
  update_entry 0 doubled_counter = (1, 0, doubled_entry)
  ∧ run (reactor fns_doubled 0) (fns_doubled 0) (reactor_entry 0 doubled_entry)
    = Ok (VObj 2) doubled_returned
  ∧ ∃ st', update_top fns_doubled 1 0 doubled_counter = Ok (VSig 1) st'
      ∧ ∃ st'', proxy_get 1 "d" st' = Ok (VNum 0) st''.
Proof.
  assert (update_entry 0 doubled_counter = (1, 0, doubled_entry)) as He
    by (vm_compute; reflexivity).
  assert (run (reactor fns_doubled 0) (fns_doubled 0)
            (reactor_entry 0 doubled_entry) = Ok (VObj 2) doubled_returned)
    as Hrun by (vm_compute; reflexivity).
  split; [exact He|]. split; [exact Hrun|].
  destruct (update_runs_at_once fns_doubled 0 0 doubled_counter 1 0
              doubled_entry 2 (mkObj [("d", VNum 0)] []) 1 doubled_returned)
    as (st' & Hup & Hread & _).
  - apply not_elem_of_nil.
  - exact He.
  - exact Hrun.
  - vm_compute. reflexivity.
  - vm_compute. reflexivity.
  - done.
  - vm_compute. lia.
  - intros k Hk. apply list_elem_of_singleton in Hk as ->.
    split; vm_compute; reflexivity.
  - exists st'. split; [exact Hup|].
    apply (Hread "d"). by apply list_elem_of_singleton.
Defined.

(** ** The two traps that get no receiver *)

(** X9.  [delete s.p] never wakes a reactor.  The Proxy hands the trap no
    receiver, so [notifySet] looks for the listeners of [undefined] and
    finds none: whoever is registered for [s.p], the delete returns with the
    own property removed (when its value was not [undefined]) and nothing
    else changed, no reactor body entered.  The trap returns [undefined]:
    sloppy code sees [false], and strict code gets a [TypeError] after the
    property is already gone. *)
Theorem delete_wakes_nobody fns fuel s target p st :
  proxies st !! s = Some target →
  let st' := if is_defined (obj_get (heap_obj st target) p)
             then heap_delete target p st else st in
  delete_top fns fuel s p st = Ok false st'
  ∧ events_since st st' = []
  ∧ listenersMap st' = listenersMap st
  ∧ (∀ k, exec fns fuel (PDelete true s p k) st = Raised TypeError st')
  ∧ (∀ k, exec fns fuel (PDelete false s p k) st = exec fns fuel (k false) st').
Proof.
  intros Ht st'. unfold delete_top.
  rewrite (delete_calls_no_listener _ s p target st Ht). fold st'.
  split; [done|].
  assert (trace st' = trace st ∧ listenersMap st' = listenersMap st)
    as [Htr Hlm]
    by (subst st'; by destruct (is_defined (obj_get (heap_obj st target) p))).
  split; [by apply (events_since_app st st' [])|]. split; [done|].
  split; intros k; unfold exec; cbn [run]; unfold bind at 1;
    by rewrite (delete_calls_no_listener _ s p target st Ht).
Qed.

Lemma delete_wakes_nobody_witness :
  proxies diamond_start !! 0 = Some 0
  ∧ listeners_of diamond_start 0 "p" = [0; 1]
  ∧ delete_top fns_diamond 3 0 "p" diamond_start
    = Ok false (heap_delete 0 "p" diamond_start)
  ∧ events_since diamond_start (heap_delete 0 "p" diamond_start) = [].
Proof.
  assert (proxies diamond_start !! 0 = Some 0) as Hp by (vm_compute; done).
  split; [exact Hp|]. split; [vm_compute; done|].
  destruct (delete_wakes_nobody fns_diamond 3 0 0 "p" diamond_start Hp)
    as (Hd & He & _).
  assert (is_defined (obj_get (heap_obj diamond_start 0) "p") = true) as Hdef
    by (vm_compute; done).
  rewrite Hdef in Hd, He. by split.
Defined.

(** X10.  [p in s] works only outside reactors.  The Proxy hands the [has]
    trap no receiver either.  With no reactor running the test answers
    [Object.hasOwn] and changes nothing; inside the computation of a
    reactor [notifyGet] tries to register the listener under [undefined],
    and [update] ends in a [TypeError]. *)
Theorem has_works_outside_reactors_only fns fuel fn s p k target st :
  proxies st !! s = Some target →
  (computeStack st = [] →
     proxy_has s p st = Ok (obj_hasOwn (heap_obj st target) p) st)
  ∧ (fns fn = PHas s p k → fn ∉ reactStack st →
     ∃ st', update_top fns (S fuel) fn st = Raised TypeError st').
Proof.
  intros Ht. split; [by apply has_outside_reactors|].
  intros Hfn Hin. unfold update_top. rewrite update_unfold.
  rewrite decide_False by done.
  destruct (update_entry fn st) as [[cs r] st2] eqn:He.
  destruct (update_entry_closure _ _ _ _ _ He) as [Hr _].
  assert (proxies (reactor_entry r st2) !! s = Some target) as Ht2.
  { destruct (reactor_entry_frame r st2) as (_ & -> & _).
    revert He. unfold update_entry, memo_signal. simpl.
    destruct (signals st !! fn); intros He; inversion He; subst; simpl;
      [done|]. rewrite lookup_app_l; [done | by eapply lookup_lt_Some]. }
  simpl. rewrite reactor_body_unfold, Hr, Hfn. cbn [run]. unfold bind at 1.
  rewrite (has_inside_reactor_throws s p target r (computeStack st2)
             (reactor_entry r st2) Ht2 (reactor_entry_computeStack r st2)).
  eauto.
Qed.

Lemma has_works_outside_reactors_only_witness :
  proxies undefined_property_start !! 0 = Some 0
  ∧ proxy_has 0 "p" undefined_property_start
    = Ok true undefined_property_start
  ∧ ∃ st', update_top fns_has 1 0 undefined_property_start
           = Raised TypeError st'.
Proof.
  destruct (has_works_outside_reactors_only fns_has 0 0 0 "p"
              (λ b, PNewObj (mkObj [("found", VBool b)] [])
                      (λ r, PRet (VObj r)))
              0 undefined_property_start eq_refl) as [Hout Hin].
  split; [reflexivity|]. split.
  - rewrite Hout; reflexivity.
  - apply Hin; [reflexivity|]. apply not_elem_of_nil.
Defined.

(** ** The run guard across nested calls *)

Lemma update_entry_inner fn st cs r st2 :
  update_entry fn st = (cs, r, st2) →
  reactStack (reactor_entry r st2) = fn :: reactStack st.
Proof.
  intros He. rewrite reactor_entry_guard. by apply update_entry_guard in He.
Qed.

(** X11.  The run guard spans nested calls of [update].  When the
    computation of [f] calls [update(g)] and the computation of [g] calls
    [update(f)], the innermost call finds [f] on [reactStack], and the
    recursion error, carrying [f], ends all three calls. *)
Theorem mutual_update_raises fns fuel f g k1 k2 st :
  fns f = PUpdate g k1 → fns g = PUpdate f k2 →
  f ∉ reactStack st → g ∉ reactStack st → f ≠ g →
  ∃ st', update_top fns (S (S fuel)) f st
         = Raised (RecursiveInvocation f) st'.
Proof.
  intros Hf Hg Hinf Hing Hne. unfold update_top. rewrite update_unfold.
  rewrite decide_False by done.
  destruct (update_entry f st) as [[cs r] st2] eqn:He.
  destruct (update_entry_closure _ _ _ _ _ He) as [Hr _].
  apply update_entry_inner in He.
  cbn [reactor]. rewrite reactor_body_unfold, Hr, Hf. cbn [run].
  unfold bind at 1. rewrite update_unfold.
  rewrite decide_False
    by (rewrite He; intros Hin; apply elem_of_cons in Hin as [?|?]; done).
  destruct (update_entry g (reactor_entry r st2)) as [[cs' r'] st3] eqn:He'.
  destruct (update_entry_closure _ _ _ _ _ He') as [Hr' _].
  apply update_entry_inner in He'.
  cbn [reactor]. rewrite reactor_body_unfold, Hr', Hg. cbn [run].
  unfold bind at 1. rewrite update_guard; [eauto|].
  rewrite He', He. apply elem_of_cons. right. apply elem_of_cons. by left.
Qed.

Lemma mutual_update_raises_witness :
  ∃ st', update_top fns_mutual 2 0 initial
         = Raised (RecursiveInvocation 0) st'.
Proof.
  apply (mutual_update_raises fns_mutual 0 0 1 PRet PRet initial).
  - reflexivity.
  - reflexivity.
  - apply not_elem_of_nil.
  - apply not_elem_of_nil.
  - done.
Defined.
